(* ===================================================================== *)
(* go-genconstructor: a shallow embedding of genconstructor.Run and      *)
(* match, and the properties of its constructor generation.              *)
(*                                                                       *)
(* Go strings are byte strings; they are modelled by [string] (a list    *)
(* of 8-bit characters), and a range over a string decodes UTF-8 as Go   *)
(* does.  map[string]string is [gmap string string], the                 *)
(* set built by match is a [gset string].  The packages the generator    *)
(* imports (reflect, go-strcase, go-genutil, go/format) are not part of  *)
(* the repository: they are the members of the class [Externals], and    *)
(* every general theorem holds for all their implementations.            *)
(* ===================================================================== *)

From Stdlib Require Import Ascii String NArith.
From stdpp Require Import base option list gmap strings fin_maps.

Local Open Scope string_scope.
Local Open Scope list_scope.
#[local] Set Warnings "-clear-no-such-hyp".

(* --------------------------------------------------------------------- *)
(* The packages unicode/utf8, unicode and strings                        *)
(* --------------------------------------------------------------------- *)

(* A rune is its code point. *)
Definition rune := N.

Module utf8.

Local Open Scope N_scope.

Definition RuneError : rune := 65533.
Definition RuneSelf : N := 128.

Definition byte (c : ascii) : N := N_of_ascii c.

Definition in_range (lo hi b : N) : bool := (lo <=? b) && (b <=? hi).

(* A continuation byte: locb <= b <= hicb, that is 0x80-0xBF. *)
Definition continuation (b : N) : bool := in_range 128 191 b.

(* The low six bits of a continuation byte (maskx). *)
Definition low6 (c : ascii) : N := N.land (byte c) 63.

(* utf8.DecodeRuneInString(s): the rune at the start of s and its width;
   (RuneError, 0%nat) on the empty string and (RuneError, 1%nat) on an encoding
   that is not valid.  The first byte gives the width and the range of
   the second byte (the tables first and acceptRanges):
     00-7F one byte;  C2-DF two bytes;
     E0 three bytes, second byte A0-BF;  ED three bytes, second 80-9F;
     E1-EC, EE, EF three bytes;
     F0 four bytes, second byte 90-BF;  F4 four bytes, second 80-8F;
     F1-F3 four bytes;  every other first byte is invalid. *)
Definition DecodeRuneInString (s : string) : rune * nat :=
  match s with
  | "" => (RuneError, 0%nat)
  | String c0 s1 =>
      let s0 := byte c0 in
      if (s0 <? RuneSelf) then (s0, 1%nat)
      else if in_range 194 223 s0 then
        match s1 with
        | String c1 _ =>
            if continuation (byte c1)
            then (N.lor (N.shiftl (N.land s0 31) 6) (low6 c1), 2%nat)
            else (RuneError, 1%nat)
        | _ => (RuneError, 1%nat)
        end
      else if in_range 224 239 s0 then
        match s1 with
        | String c1 (String c2 _) =>
            let lo := if (s0 =? 224) then 160 else 128 in
            let hi := if (s0 =? 237) then 159 else 191 in
            if in_range lo hi (byte c1) && continuation (byte c2)
            then (N.lor (N.shiftl (N.land s0 15) 12)
                    (N.lor (N.shiftl (low6 c1) 6) (low6 c2)), 3%nat)
            else (RuneError, 1%nat)
        | _ => (RuneError, 1%nat)
        end
      else if in_range 240 244 s0 then
        match s1 with
        | String c1 (String c2 (String c3 _)) =>
            let lo := if (s0 =? 240) then 144 else 128 in
            let hi := if (s0 =? 244) then 143 else 191 in
            if in_range lo hi (byte c1) && continuation (byte c2)
               && continuation (byte c3)
            then (N.lor (N.shiftl (N.land s0 7) 18)
                    (N.lor (N.shiftl (low6 c1) 12)
                       (N.lor (N.shiftl (low6 c2) 6) (low6 c3))), 4%nat)
            else (RuneError, 1%nat)
        | _ => (RuneError, 1%nat)
        end
      else (RuneError, 1%nat)
  end.

(* [for _, r := range s]: the runes of s in order, each with the bytes
   it is read from; [skip] counts the bytes of the current rune still
   to pass. *)
Fixpoint range_from (skip : nat) (s : string) : list (rune * string) :=
  match s with
  | "" => []
  | String _ s' =>
      match skip with
      | S k => range_from k s'
      | O =>
          let '(r, size) := DecodeRuneInString s in
          (r, String.substring 0 size s) :: range_from (size - 1)%nat s'
      end
  end.

Definition range (s : string) : list (rune * string) := range_from 0 s.

End utf8.

Module unicode.

Local Open Scope N_scope.

Definition MaxLatin1 : rune := 255.

(* unicode.IsSpace: in Latin-1 the characters \t \n \v \f \r, space,
   U+0085 and U+00A0; beyond Latin-1 the table White_Space. *)
Definition IsSpace (r : rune) : bool :=
  if (r <=? MaxLatin1) then
    utf8.in_range 9 13 r || (r =? 32) || (r =? 133) || (r =? 160)
  else
    (r =? 5760) || utf8.in_range 8192 8202 r || utf8.in_range 8232 8233 r
    || (r =? 8239) || (r =? 8287) || (r =? 12288).

(* The letters of Latin-1: A-Z, a-z, U+00AA, U+00B5, U+00BA,
   U+00C0-U+00D6, U+00D8-U+00F6, U+00F8-U+00FF. *)
Definition latin1_letter (r : rune) : bool :=
  utf8.in_range 65 90 r || utf8.in_range 97 122 r
  || (r =? 170) || (r =? 181) || (r =? 186)
  || utf8.in_range 192 214 r || utf8.in_range 216 246 r
  || utf8.in_range 248 255 r.

(* unicode.IsLetter; [Letter] is the table unicode.Letter, which is
   consulted for the runes beyond Latin-1 only. *)
Definition IsLetter (Letter : rune → bool) (r : rune) : bool :=
  if (r <=? MaxLatin1) then latin1_letter r else Letter r.

End unicode.

Module strings.

(* strings.HasPrefix(s, prefix) *)
Definition HasPrefix (s prefix : string) : bool := String.prefix prefix s.

Fixpoint drop_runes (f : rune → bool) (rs : list (rune * string))
  : list (rune * string) :=
  match rs with
  | [] => []
  | (r, bytes) :: rs' => if f r then drop_runes f rs' else rs
  end.

(* strings.TrimFunc(s, f): s without its leading and its trailing runes
   that satisfy f. *)
Definition TrimFunc (s : string) (f : rune → bool) : string :=
  String.concat ""
    (snd <$> reverse (drop_runes f (reverse (drop_runes f (utf8.range s))))).

(* strings.TrimSpace(s) *)
Definition TrimSpace (s : string) : string := TrimFunc s unicode.IsSpace.

Fixpoint trim_left (f : ascii → bool) (s : string) : string :=
  match s with
  | "" => ""
  | String c s' => if f c then trim_left f s' else s
  end.

Definition trim_right (f : ascii → bool) (s : string) : string :=
  String.rev (trim_left f (String.rev s)).

Fixpoint mem_ascii (c : ascii) (cutset : string) : bool :=
  match cutset with
  | "" => false
  | String d cutset' => if decide (c = d) then true else mem_ascii c cutset'
  end.

(* strings.Trim(s, cutset) for a cutset of ASCII characters: the bytes of
   the cutset are cut at both ends. *)
Definition Trim (s cutset : string) : string :=
  trim_right (λ c, mem_ascii c cutset) (trim_left (λ c, mem_ascii c cutset) s).

(* The field being read, if any. *)
Definition flush (cur : string) : list string :=
  match cur with
  | "" => []
  | _ => [cur]
  end.

(* The scan of strings.FieldsFunc over the runes of the string: [cur]
   holds the bytes of the field being read; a rune satisfying [f] ends
   it. *)
Fixpoint fields_from (f : rune → bool) (cur : string)
    (rs : list (rune * string)) : list string :=
  match rs with
  | [] => flush cur
  | (r, bytes) :: rs' =>
      if f r then (flush cur ++ fields_from f "" rs')%list
      else fields_from f (cur +:+ bytes) rs'
  end.

(* strings.FieldsFunc(s, f) *)
Definition FieldsFunc (s : string) (f : rune → bool) : list string :=
  fields_from f "" (utf8.range s).

(* strings.Fields(s): the fields between runs of white space; on a
   string of ASCII bytes Go takes a shorter way to the same result. *)
Definition Fields (s : string) : list string := FieldsFunc s unicode.IsSpace.

(* strings.Contains(s, substr) *)
Fixpoint Contains (s substr : string) : bool :=
  String.prefix substr s
  || match s with
     | "" => false
     | String _ s' => Contains s' substr
     end.

(* strings.Join(elems, sep) *)
Definition Join (elems : list string) (sep : string) : string :=
  String.concat sep elems.

End strings.

(* --------------------------------------------------------------------- *)
(* Errors                                                                *)
(* --------------------------------------------------------------------- *)

Definition error := string.

Inductive result (A : Type) : Type :=
| Ok (a : A)
| Err (e : error).
Arguments Ok {A} a.
Arguments Err {A} e.

(* The error monad of a Go function returning (value, error); the
   notation [x ← r; k] is stdpp's. *)
Global Instance result_bind : MBind result := λ A B k r,
  match r with
  | Ok a => k a
  | Err e => Err e
  end.

Global Instance result_ret : MRet result := λ A a, Ok a.

(* --------------------------------------------------------------------- *)
(* The go/ast values Run reads                                           *)
(* --------------------------------------------------------------------- *)

(* An ast.Expr is only handed to the type printer: its source text. *)
Definition Expr := string.

Module Comment.
Record t := mk { Text : string }.
End Comment.

Module Field.
(* Tag is field.Tag (nil when absent) and holds field.Tag.Value, the
   literal with its back quotes. *)
Record t := mk { Names : list string; Type_ : Expr; Tag : option string }.
End Field.

Module TypeSpec.
(* Doc is spec.Doc (nil when absent) with its List; Fields is
   the field list of the struct type spec.Type. *)
Record t := mk {
  Name : string;
  Doc : option (list Comment.t);
  Fields : list Field.t
}.
End TypeSpec.

Module GenDecl.
Record t := mk { Doc : option (list Comment.t) }.
End GenDecl.

Module File.
(* The import specs of a file: optional local name and path. *)
Record t := mk { Imports : list (option string * string) }.
End File.

Module Package.
Record t := mk { Name : string }.
End Package.

(* genutil.TypePrinter: its two methods, applied to a package path. *)
Module TypePrinter.
Record t := mk {
  Print : string → string;
  ImportPkgMap : string → gmap string string
}.
End TypePrinter.

(* genutil.AstPkgWalker: the fields and methods Run uses. *)
Module Walker.
Record t := mk {
  Pkg : Package.t;
  PkgPath : string;
  AllStructSpecs : list TypeSpec.t;
  TypeSpecToGenDecl : TypeSpec.t → GenDecl.t;
  ToTypePrinter : Expr → result TypePrinter.t;
  ToFile : Field.t → File.t
}.
End Walker.

Definition FileInfo := string.

(* The functions of imported packages. *)
Class Externals := {
  (* unicode: the table Letter, read beyond Latin-1 *)
  Letter : rune → bool;
  (* reflect.StructTag.Lookup: None is ok = false *)
  Lookup : string → string → option string;
  (* strcase *)
  ToUpperCamel : string → string;
  ToLowerCamel : string → string;
  SplitIntoWords : string → list string;
  (* genutil *)
  DirToAstWalker : string → option (FileInfo → bool) → result (list Walker.t);
  ParseFieldName : Field.t → string;
  AstFileToImportMap : File.t → gmap string string;
  ToTypePrinter : gmap string string → string → string → result TypePrinter.t;
  GoFmtImports : gmap string string → string;
  (* format.Source *)
  Source : string → result string
}.

(* --------------------------------------------------------------------- *)
(* Constants and types of genconstructor.go                              *)
(* --------------------------------------------------------------------- *)

Definition commentMarker := "//genconstructor".
Definition pointerOpts := "-p".
Definition superOpts := "-s".
Definition extendsOpts := "-e".

Module option_.
Record t := mk {
  fileFilter : option (FileInfo → bool);
  generatorName : string
}.
End option_.

Definition Option := option_.t → option_.t.

Definition WithFileFilter (fileFilter : FileInfo → bool) : Option :=
  λ o, option_.mk (Some fileFilter) (option_.generatorName o).

Definition WithGeneratorName (generatorName : string) : Option :=
  λ o, option_.mk (option_.fileFilter o) generatorName.

Module FieldInfo.
Record t := mk { Type_ : string; Name : string; ConstValue : string }.
End FieldInfo.

Module tmplParam.
Record t := mk {
  StructName : string;
  InterfaceName : string;
  Fields : list FieldInfo.t;
  Pointer : bool;
  Super : bool;
  Extends : bool
}.
End tmplParam.

(* --------------------------------------------------------------------- *)
(* match                                                                 *)
(* --------------------------------------------------------------------- *)

(* mb := make(map[string]struct{}); for _, x := range b { mb[x] = struct{}{} } *)
Definition match_set (b : list string) : gset string :=
  fold_left (λ mb x, {[x]} ∪ mb) b ∅.

(* for _, x := range a { if _, found := mb[x]; found { append } } *)
Fixpoint match_scan (mb : gset string) (a : list string) : list string :=
  match a with
  | [] => []
  | x :: a' =>
      if decide (x ∈ mb) then x :: match_scan mb a' else match_scan mb a'
  end.

Definition match_ (a b : list string) : list string :=
  match_scan (match_set b) a.

(* --------------------------------------------------------------------- *)
(* Ranging over a Go map                                                 *)
(* --------------------------------------------------------------------- *)

(* Go leaves the order of [for k, v := range m] unspecified: a run visits
   the entries of m in some order, each entry once. *)
Record MapOrder := {
  range_order : gmap string string → list (string * string);
  range_order_perm : ∀ m, range_order m ≡ₚ map_to_list m
}.

(* for n, pkg := range src { importPackages[n] = pkg } *)
Definition merge_imports (ord : MapOrder)
    (src importPackages : gmap string string) : gmap string string :=
  fold_left (λ acc e, <[e.1 := e.2]> acc) (range_order ord src) importPackages.

(* --------------------------------------------------------------------- *)
(* The marker and its options (Run, the loop over docs)                  *)
(* --------------------------------------------------------------------- *)

Module Flags.
Record t := mk {
  hasMarker : bool;
  hasPointerOpts : bool;
  hasSuperOpts : bool;
  hasExtendsOpts : bool
}.
End Flags.

(* for _, s := range strings.Fields(comment.Text): the first option found
   sets its flag and breaks. *)
Fixpoint scan_opts (ss : list string) : Flags.t :=
  match ss with
  | [] => Flags.mk true false false false
  | s :: ss' =>
      if decide (s = pointerOpts) then Flags.mk true true false false
      else if decide (s = superOpts) then Flags.mk true false true false
      else if decide (s = extendsOpts) then Flags.mk true false false true
      else scan_opts ss'
  end.

(* for _, comment := range docs: the first comment with the marker is
   scanned and ends the loop. *)
Fixpoint scan_docs (docs : list Comment.t) : Flags.t :=
  match docs with
  | [] => Flags.mk false false false false
  | comment :: docs' =>
      if strings.HasPrefix (strings.TrimSpace (Comment.Text comment))
           commentMarker
      then scan_opts (strings.Fields (Comment.Text comment))
      else scan_docs docs'
  end.

(* docs: spec.Doc.List followed by the Doc.List of the enclosing GenDecl *)
Definition collect_docs (walker : Walker.t) (spec : TypeSpec.t)
  : list Comment.t :=
  (default [] (TypeSpec.Doc spec)
   ++ default [] (GenDecl.Doc (Walker.TypeSpecToGenDecl walker spec)))%list.

(* --------------------------------------------------------------------- *)
(* Writers                                                               *)
(* --------------------------------------------------------------------- *)

(* An io.Writer: the result of Write, and whether the value is also an
   io.Closer. *)
Module Writer.
Record t := mk { Write : string → result nat; IsCloser : bool }.
End Writer.

(* What Run does to the writers, in order. *)
Inductive Event : Type :=
| EvNewWriter (pkg : Package.t)
| EvWrite (pkg : Package.t) (p : string)
| EvClose (pkg : Package.t).

(* A monadic left fold: a Go loop whose body may return an error. *)
Fixpoint foldlM {A S} (step : S → A → result S) (st : S) (l : list A)
  : result S :=
  match l with
  | [] => Ok st
  | x :: l' => st' ← step st x; foldlM step st' l'
  end.

Definition tab : string := String "009" "".
Definition nl : string := String "010" "".

Fixpoint tabs (n : nat) : string :=
  match n with
  | O => ""
  | S n' => tab +:+ tabs n'
  end.

(* State of the loop over the fields of one struct. *)
Module FieldLoop.
Record t := mk {
  fieldInfos : list FieldInfo.t;
  superName : string;
  importPackages : gmap string string
}.
End FieldLoop.

Section Generator.

Context `{Ext : Externals}.
Variable ord : MapOrder.

(* The separator of the constant-value scan:
   !unicode.IsLetter(c) && c != '.' && c != '_' && c != '-' *)
Definition const_sep (c : rune) : bool :=
  negb (unicode.IsLetter Letter c)
  && negb (c =? 46)%N && negb (c =? 95)%N && negb (c =? 45)%N.

(* One identifier of a constant value: lines 154-164. *)
Definition resolve_ident (walker : Walker.t) (field : Field.t)
    (importPackages : gmap string string) (s : string)
  : result (gmap string string) :=
  p ← ToTypePrinter
        (AstFileToImportMap (Walker.ToFile walker field))
        (Walker.PkgPath walker) s;
  Ok (merge_imports ord
        (TypePrinter.ImportPkgMap p (Walker.PkgPath walker)) importPackages).

(* The body of the loop over structType.Fields.List: lines 119-172. *)
Definition field_step (walker : Walker.t) (st : FieldLoop.t)
    (field : Field.t) : result FieldLoop.t :=
  match Field.Tag field with
  | None => Ok st
  | Some value =>
      let tag := strings.Trim value "`" in
      let constValue := default "" (Lookup tag "required") in
      let hasRequiredTag := bool_decide (is_Some (Lookup tag "required")) in
      let hasSuperTag := bool_decide (is_Some (Lookup tag "super")) in
      if negb hasRequiredTag && negb hasSuperTag then Ok st
      else
        let fieldName := ParseFieldName field in
        typePrinter ← Walker.ToTypePrinter walker (Field.Type_ field);
        let fieldInfos :=
          (FieldLoop.fieldInfos st ++
           [FieldInfo.mk
              (TypePrinter.Print typePrinter (Walker.PkgPath walker))
              fieldName constValue])%list in
        let superName :=
          if hasSuperTag then fieldName else FieldLoop.superName st in
        if negb (bool_decide (constValue = "")) then
          let ss := strings.FieldsFunc constValue const_sep in
          importPackages ←
            foldlM (resolve_ident walker field)
                   (FieldLoop.importPackages st) ss;
          Ok (FieldLoop.mk fieldInfos superName importPackages)
        else
          Ok (FieldLoop.mk fieldInfos superName
                (merge_imports ord
                   (TypePrinter.ImportPkgMap typePrinter
                      (Walker.PkgPath walker))
                   (FieldLoop.importPackages st)))
  end.

(* Lines 174-181. *)
Definition interfaceName_of (fl : Flags.t) (superName specName : string)
  : string :=
  let interfaceName := "" in
  let interfaceName :=
    if Flags.hasSuperOpts fl then ToUpperCamel specName
    else interfaceName in
  if Flags.hasExtendsOpts fl then
    strings.Join
      (match_ (SplitIntoWords (ToUpperCamel superName))
              (SplitIntoWords (ToUpperCamel specName))) ""
  else interfaceName.

(* ---- the template "constructor", piece by piece ---- *)

(* and ($.Extends) (eq (ToUpperCamel .Name) $.InterfaceName) *)
Definition narrowed (p : tmplParam.t) (f : FieldInfo.t) : bool :=
  tmplParam.Extends p
  && bool_decide (ToUpperCamel (FieldInfo.Name f) = tmplParam.InterfaceName p).

(* A Go template takes a string as true when it is not empty. *)
Definition truth (s : string) : bool := negb (bool_decide (s = "")).

Definition tmpl_param (p : tmplParam.t) (f : FieldInfo.t) : string :=
  if narrowed p f then "x " +:+ tmplParam.InterfaceName p
  else ToLowerCamel (FieldInfo.Name f) +:+ " " +:+ FieldInfo.Type_ f.

(* The first range: a line per field without constant value. *)
Definition tmpl_param_line (p : tmplParam.t) (f : FieldInfo.t) : string :=
  if negb (truth (FieldInfo.ConstValue f))
  then nl +:+ tabs 9 +:+ tmpl_param p f +:+ ","
  else "".

Definition tmpl_params (p : tmplParam.t) : string :=
  String.concat "" (tmpl_param_line p <$> tmplParam.Fields p).

Definition tmpl_return_type (p : tmplParam.t) : string :=
  (if tmplParam.Pointer p then "*" else "")
  +:+ (if tmplParam.Super p || tmplParam.Extends p
       then tmplParam.InterfaceName p else tmplParam.StructName p).

Definition tmpl_addr (p : tmplParam.t) : string :=
  if tmplParam.Pointer p || tmplParam.Super p || tmplParam.Extends p
  then "&" else "".

Definition tmpl_value (p : tmplParam.t) (f : FieldInfo.t) : string :=
  if truth (FieldInfo.ConstValue f) then FieldInfo.ConstValue f
  else if narrowed p f then "x.(" +:+ "*" +:+ FieldInfo.Name f +:+ ")"
  else ToLowerCamel (FieldInfo.Name f).

(* The second range: a line per field. *)
Definition tmpl_assign_line (p : tmplParam.t) (f : FieldInfo.t) : string :=
  nl +:+ tabs 10 +:+ FieldInfo.Name f +:+ ": " +:+ tmpl_value p f +:+ ",".

Definition tmpl_assigns (p : tmplParam.t) : string :=
  String.concat "" (tmpl_assign_line p <$> tmplParam.Fields p).

Definition constructor_name (p : tmplParam.t) : string :=
  "New" +:+ ToUpperCamel (tmplParam.StructName p).

(* template "constructor" executed on p *)
Definition constructor_tmpl (p : tmplParam.t) : string :=
  nl +:+ "func " +:+ constructor_name p +:+ "("
  +:+ tmpl_params p
  +:+ nl +:+ tabs 6 +:+ ") " +:+ tmpl_return_type p +:+ " {"
  +:+ nl +:+ tabs 7 +:+ "return " +:+ tmpl_addr p
  +:+ tmplParam.StructName p +:+ "{"
  +:+ tmpl_assigns p
  +:+ nl +:+ tabs 7 +:+ "}"
  +:+ nl +:+ tabs 6 +:+ "}"
  +:+ nl +:+ tabs 5.

(* The tmplParam of a marked struct: lines 204-211. *)
Definition spec_param (fl : Flags.t) (spec : TypeSpec.t)
    (st : FieldLoop.t) : tmplParam.t :=
  tmplParam.mk
    (TypeSpec.Name spec)
    (interfaceName_of fl (FieldLoop.superName st) (TypeSpec.Name spec))
    (FieldLoop.fieldInfos st)
    (Flags.hasPointerOpts fl)
    (Flags.hasSuperOpts fl)
    (Flags.hasExtendsOpts fl).

(* The body of the loop over walker.AllStructSpecs(): lines 76-214.
   The state is the buffer body and the map importPackages. *)
Definition spec_step (walker : Walker.t)
    (st : string * gmap string string) (spec : TypeSpec.t)
  : result (string * gmap string string) :=
  let docs := collect_docs walker spec in
  if bool_decide (length docs = 0) then Ok st
  else
    let fl := scan_docs docs in
    if negb (Flags.hasMarker fl) then Ok st
    else
      fs ← foldlM (field_step walker)
              (FieldLoop.mk [] "" st.2) (TypeSpec.Fields spec);
      Ok (st.1 +:+ constructor_tmpl (spec_param fl spec fs),
          FieldLoop.importPackages fs).

(* body and importPackages of one walker, after the loop over specs *)
Definition group_body (walker : Walker.t)
  : result (string * gmap string string) :=
  foldlM (spec_step walker) ("", ∅) (Walker.AllStructSpecs walker).

(* template "out" executed on its four strings *)
Definition out_tmpl (GeneratorName PackageName ImportPackages Body : string)
  : string :=
  nl +:+ tabs 3 +:+ "// Code generated by " +:+ GeneratorName
  +:+ "; DO NOT EDIT." +:+ nl +:+ nl
  +:+ tabs 3 +:+ "package " +:+ PackageName +:+ nl +:+ nl
  +:+ tabs 3 +:+ ImportPackages +:+ nl +:+ nl
  +:+ tabs 3 +:+ Body +:+ nl +:+ tabs 2.

(* The text handed to the writer of a walker: lines 219-242. *)
Definition group_text (opt : option_.t) (walker : Walker.t)
    (body : string) (importPackages : gmap string string) : result string :=
  Source (out_tmpl (option_.generatorName opt)
            (Package.Name (Walker.Pkg walker))
            (GoFmtImports importPackages) body).

(* The loop over walkers: lines 73-252.  [deferred] is the stack of
   deferred Close calls, run when Run returns. *)
Fixpoint run_walkers (opt : option_.t) (newWriter : Package.t → Writer.t)
    (walkers : list Walker.t) (deferred : list Package.t)
  : list Event * result unit :=
  match walkers with
  | [] => (EvClose <$> deferred, Ok ())
  | walker :: walkers' =>
      match group_body walker with
      | Err e => (EvClose <$> deferred, Err e)
      | Ok (body, importPackages) =>
          if bool_decide (String.length body = 0)
          then run_walkers opt newWriter walkers' deferred
          else
            match group_text opt walker body importPackages with
            | Err e => (EvClose <$> deferred, Err e)
            | Ok str =>
                let pkg := Walker.Pkg walker in
                let writer := newWriter pkg in
                let deferred' :=
                  if Writer.IsCloser writer then pkg :: deferred
                  else deferred in
                match Writer.Write writer str with
                | Err e =>
                    (EvNewWriter pkg :: EvWrite pkg str
                       :: (EvClose <$> deferred'), Err e)
                | Ok _ =>
                    let '(tr, r) :=
                      run_walkers opt newWriter walkers' deferred' in
                    (EvNewWriter pkg :: EvWrite pkg str :: tr, r)
                end
            end
      end
  end.

Definition Run (targetDir : string) (newWriter : Package.t → Writer.t)
    (opts : list Option) : list Event * result unit :=
  let opt :=
    fold_left (λ o opt, opt o) opts (option_.mk None "go-genconstructor") in
  match DirToAstWalker targetDir (option_.fileFilter opt) with
  | Err e => ([], Err e)
  | Ok walkers => run_walkers opt newWriter walkers []
  end.

End Generator.

(* --------------------------------------------------------------------- *)
(* The notions of the specification                                      *)
(* --------------------------------------------------------------------- *)

Definition is_marker (comment : Comment.t) : Prop :=
  strings.HasPrefix (strings.TrimSpace (Comment.Text comment)) commentMarker
  = true.

Global Instance is_marker_dec comment : Decision (is_marker comment).
Proof. unfold is_marker. apply _. Defined.

Definition is_opt (s : string) : Prop :=
  s = pointerOpts ∨ s = superOpts ∨ s = extendsOpts.

Global Instance is_opt_dec s : Decision (is_opt s).
Proof. unfold is_opt. apply _. Defined.

(* The flags a token sets. *)
Definition flags_of_token (tok : option string) : Flags.t :=
  match tok with
  | None => Flags.mk true false false false
  | Some s =>
      Flags.mk true (bool_decide (s = pointerOpts))
        (bool_decide (s = superOpts)) (bool_decide (s = extendsOpts))
  end.

(* The scan in the words of the specification: the first comment with
   the marker, and on it the first token that is an option. *)
Definition first_option_flags (docs : list Comment.t) : Flags.t :=
  match list_find is_marker docs with
  | None => Flags.mk false false false false
  | Some (_, comment) =>
      flags_of_token
        (snd <$> list_find is_opt (strings.Fields (Comment.Text comment)))
  end.

(* The first of the options -p, -s, -e among the tokens is o. *)
Definition first_option_is (o : string) (toks : list string) : Prop :=
  ∃ pre post, toks = pre ++ o :: post ∧ Forall (λ t, ¬ is_opt t) pre.

Definition flag_count (fl : Flags.t) : nat :=
  Nat.b2n (Flags.hasPointerOpts fl) + Nat.b2n (Flags.hasSuperOpts fl)
  + Nat.b2n (Flags.hasExtendsOpts fl).

Section Notions.

Context `{Ext : Externals}.
Variable ord : MapOrder.

(* A rune of an identifier of a constant value: a letter or one of the
   characters . _ - *)
Definition ident_rune (r : rune) : bool :=
  unicode.IsLetter Letter r || (r =? 46)%N || (r =? 95)%N || (r =? 45)%N.

(* The identifiers of a constant value, in the words of the
   specification: the text is split at every rune that is not a rune of
   an identifier; [cur] is the identifier being read, if any. *)
Fixpoint idents_from (cur : option string) (rs : list (rune * string))
  : list string :=
  match rs with
  | [] => option_list cur
  | x :: rs' =>
      if ident_rune x.1
      then idents_from (Some (from_option (λ c, c +:+ x.2) x.2 cur)) rs'
      else option_list cur ++ idents_from None rs'
  end.

Definition idents_of (constValue : string) : list string :=
  idents_from None (utf8.range constValue).

(* A field that carries the designated-base key. *)
Definition has_super_tag (field : Field.t) : bool :=
  match Field.Tag field with
  | None => false
  | Some value =>
      bool_decide (is_Some (Lookup (strings.Trim value "`") "super"))
  end.

(* A field that carries the constant-value key. *)
Definition has_required_tag (field : Field.t) : bool :=
  match Field.Tag field with
  | None => false
  | Some value =>
      bool_decide (is_Some (Lookup (strings.Trim value "`") "required"))
  end.

(* The value of the constant-value key, empty without the key. *)
Definition const_value (field : Field.t) : string :=
  match Field.Tag field with
  | None => ""
  | Some value => default "" (Lookup (strings.Trim value "`") "required")
  end.

Definition tagged (field : Field.t) : bool :=
  has_required_tag field || has_super_tag field.

(* The name of the designated base: that of the last field with the
   key, empty when there is none. *)
Definition base_field_name (fields : list Field.t) : string :=
  default ""
    (last (ParseFieldName <$> filter (λ f, has_super_tag f = true) fields)).

(* The FieldInfo of a tagged field whose type prints. *)
Definition field_info (walker : Walker.t) (field : Field.t) : FieldInfo.t :=
  FieldInfo.mk
    (match Walker.ToTypePrinter walker (Field.Type_ field) with
     | Ok tp => TypePrinter.Print tp (Walker.PkgPath walker)
     | Err _ => ""
     end)
    (ParseFieldName field) (const_value field).

(* [grows_by C a b]: the table b is the table a with the entries of maps
   satisfying C added; the aliases of b are those of a and of these
   maps, and every path of b is that of a or of one of these maps. *)
Definition grows_by (C : gmap string string → Prop)
    (a b : gmap string string) : Prop :=
  (∀ n, n ∈ dom b ↔ n ∈ dom a ∨ ∃ m, C m ∧ n ∈ dom m)
  ∧ (∀ n path, b !! n = Some path →
       a !! n = Some path ∨ ∃ m, C m ∧ m !! n = Some path).

(* The map an identifier of a constant value adds. *)
Definition ident_contributes (walker : Walker.t) (field : Field.t)
    (s : string) (m : gmap string string) : Prop :=
  ∃ p, ToTypePrinter (AstFileToImportMap (Walker.ToFile walker field))
         (Walker.PkgPath walker) s = Ok p
       ∧ m = TypePrinter.ImportPkgMap p (Walker.PkgPath walker).

(* The maps a field adds to the table: without a constant value, the
   imports of its printed type; with one, the imports of each
   identifier of the constant, and not those of its type. *)
Definition contributes (walker : Walker.t) (field : Field.t)
    (m : gmap string string) : Prop :=
  tagged field = true ∧
  ((const_value field = ""
    ∧ ∃ tp, Walker.ToTypePrinter walker (Field.Type_ field) = Ok tp
            ∧ m = TypePrinter.ImportPkgMap tp (Walker.PkgPath walker))
   ∨ (const_value field ≠ ""
      ∧ ∃ s, s ∈ idents_of (const_value field)
             ∧ ident_contributes walker field s m)).

Definition marked (walker : Walker.t) (spec : TypeSpec.t) : Prop :=
  Flags.hasMarker (scan_docs (collect_docs walker spec)) = true.

(* The maps a compilation-unit group adds: those of the tagged fields
   of its marked types. *)
(* A doc comment of the struct or of its enclosing declaration carries
   the marker. *)
Definition has_marker_comment (walker : Walker.t) (spec : TypeSpec.t)
  : Prop :=
  Exists is_marker
    (default [] (TypeSpec.Doc spec)
     ++ default [] (GenDecl.Doc (Walker.TypeSpecToGenDecl walker spec))).

Definition group_contributes (walker : Walker.t)
    (m : gmap string string) : Prop :=
  ∃ spec, spec ∈ Walker.AllStructSpecs walker
    ∧ has_marker_comment walker spec
    ∧ ∃ field, field ∈ TypeSpec.Fields spec ∧ contributes walker field m.

(* The field cannot be processed: it is tagged and either its type does
   not print, or its type prints and the first identifier of its
   constant value that does not resolve fails with e. *)
Definition field_fails (walker : Walker.t) (field : Field.t) (e : error)
  : Prop :=
  tagged field = true ∧
  (Walker.ToTypePrinter walker (Field.Type_ field) = Err e
   ∨ (∃ tp, Walker.ToTypePrinter walker (Field.Type_ field) = Ok tp)
     ∧ ∃ pre s post,
         strings.FieldsFunc (const_value field) const_sep = pre ++ s :: post
         ∧ (∀ s', s' ∈ pre →
              ∃ p, ToTypePrinter
                     (AstFileToImportMap (Walker.ToFile walker field))
                     (Walker.PkgPath walker) s' = Ok p)
         ∧ ToTypePrinter (AstFileToImportMap (Walker.ToFile walker field))
             (Walker.PkgPath walker) s = Err e).

(* The failing field is the first one Run meets in the group: the
   structs before its struct, and the fields before it, are processed
   without error. *)
Definition first_failure (walker : Walker.t) (e : error) : Prop :=
  ∃ sp1 spec sp2 st f1 field f2 fst,
    Walker.AllStructSpecs walker = sp1 ++ spec :: sp2
    ∧ foldlM (spec_step ord walker) ("", ∅) sp1 = Ok st
    ∧ marked walker spec
    ∧ TypeSpec.Fields spec = f1 ++ field :: f2
    ∧ foldlM (field_step ord walker) (FieldLoop.mk [] "" st.2) f1 = Ok fst
    ∧ field_fails walker field e.

End Notions.

(* --------------------------------------------------------------------- *)
(* A reference implementation of the imported packages                   *)
(* --------------------------------------------------------------------- *)

(* The general theorems hold for every [Externals].  The examples need
   one: this module follows reflect.StructTag.Lookup with
   strconv.Unquote, and gives plain
   camel-case functions and a plain resolver of package-qualified
   identifiers in place of go-strcase and go-genutil.  format.Source is
   the identity here: the layout gofmt gives the text is not modelled. *)
Module Reference.

Definition dq : string := String "034" "".
Definition bs : string := String "092" "".

Definition is_upper (c : ascii) : bool :=
  let n := nat_of_ascii c in Nat.leb 65 n && Nat.leb n 90.
Definition is_lower (c : ascii) : bool :=
  let n := nat_of_ascii c in Nat.leb 97 n && Nat.leb n 122.
Definition to_upper (c : ascii) : ascii :=
  if is_lower c then ascii_of_nat (nat_of_ascii c - 32) else c.
Definition to_lower (c : ascii) : ascii :=
  if is_upper c then ascii_of_nat (nat_of_ascii c + 32) else c.

(* ---- unicode ---- *)

(* A part of the table unicode.Letter beyond Latin-1: the Greek letters
   alpha to omega, the Cyrillic letters U+0410-U+044F, Hiragana,
   Katakana and the CJK ideographs U+4E00-U+9FA5. *)
Definition Letter (r : rune) : bool :=
  (utf8.in_range 945 969 r || utf8.in_range 1040 1103 r
   || utf8.in_range 12353 12438 r || utf8.in_range 12449 12538 r
   || utf8.in_range 19968 40869 r)%N.

(* ---- reflect.StructTag.Lookup ---- *)

(* A character of a key: above the space, and none of the colon, the
   double quote and DEL. *)
Definition name_char (c : ascii) : bool :=
  let n := nat_of_ascii c in
  Nat.ltb 32 n && negb (Nat.eqb n 58) && negb (Nat.eqb n 34)
  && negb (Nat.eqb n 127).

Fixpoint span (f : ascii → bool) (s : string) : string * string :=
  match s with
  | "" => ("", "")
  | String c s' =>
      if f c then let '(a, b) := span f s' in (String c a, b) else ("", s)
  end.

(* The scan of a quoted value, after its opening quote: the text up to
   the closing quote, escapes kept, and what follows that quote. *)
Fixpoint scan_quoted (s : string) : option (string * string) :=
  match s with
  | "" => None
  | String c s' =>
      if Nat.eqb (nat_of_ascii c) 34 then Some ("", s')
      else if Nat.eqb (nat_of_ascii c) 92 then
        match s' with
        | "" => None
        | String d s'' =>
            '(a, b) ← scan_quoted s''; Some (String c (String d a), b)
        end
      else '(a, b) ← scan_quoted s'; Some (String c a, b)
  end.

(* unhex: the value of a hexadecimal digit. *)
Definition unhex (c : ascii) : option N :=
  let b := utf8.byte c in
  if utf8.in_range 48 57 b then Some (b - 48)%N
  else if utf8.in_range 97 102 b then Some (b - 97 + 10)%N
  else if utf8.in_range 65 70 b then Some (b - 65 + 10)%N
  else None.

(* n digits to the base given by [digit], after the value v. *)
Fixpoint read_digits (digit : ascii → option N) (base : N) (n : nat) (v : N)
    (s : string) : option (N * string) :=
  match n with
  | O => Some (v, s)
  | S n' =>
      match s with
      | "" => None
      | String c s' =>
          x ← digit c; read_digits digit base n' (v * base + x)%N s'
      end
  end.

Definition unoct (c : ascii) : option N :=
  let b := utf8.byte c in
  if utf8.in_range 48 55 b then Some (b - 48)%N else None.

(* utf8.ValidRune: up to U+10FFFF and no surrogate half. *)
Definition ValidRune (r : rune) : bool :=
  (r <? 55296)%N || ((57343 <? r)%N && (r <=? 1114111)%N).

Definition chr (b : N) : string := String (ascii_of_N b) "".

(* utf8.AppendRune: the encoding of a rune, that of RuneError for a rune
   that is not valid. *)
Definition AppendRune (r : rune) : string :=
  let r := if ValidRune r then r else utf8.RuneError in
  let cont (k : N) := chr (N.lor 128 (N.land (N.shiftr r k) 63)) in
  if (r <? 128)%N then chr r
  else if (r <? 2048)%N then chr (N.lor 192 (N.shiftr r 6)) +:+ cont 0%N
  else if (r <? 65536)%N
  then chr (N.lor 224 (N.shiftr r 12)) +:+ cont 6%N +:+ cont 0%N
  else chr (N.lor 240 (N.shiftr r 18)) +:+ cont 12%N +:+ cont 6%N
       +:+ cont 0%N.

Fixpoint drop_bytes (n : nat) (s : string) : string :=
  match n, s with
  | S n', String _ s' => drop_bytes n' s'
  | _, _ => s
  end.

(* strconv.Unquote of a double-quoted value, given without its quotes:
   the escapes of UnquoteChar are read, a line feed and an unescaped
   double quote are refused, and a byte sequence that is not valid UTF-8
   becomes U+FFFD.  [fuel] bounds the number of characters. *)
Fixpoint unquote_go (fuel : nat) (s : string) : option string :=
  match fuel with
  | O => None
  | S fuel' =>
      match s with
      | "" => Some ""
      | String c s' =>
          let b := utf8.byte c in
          if (b =? 92)%N then
            match s' with
            | "" => None
            | String d s'' =>
                let one (x : ascii) := String x <$> unquote_go fuel' s'' in
                match d with
                | "a"%char => one "007"%char
                | "b"%char => one "008"%char
                | "f"%char => one "012"%char
                | "n"%char => one "010"%char
                | "r"%char => one "013"%char
                | "t"%char => one "009"%char
                | "v"%char => one "011"%char
                | "\"%char => one "\"%char
                | "034"%char => one "034"%char
                | "x"%char =>
                    '(v, rest) ← read_digits unhex 16 2 0%N s'';
                    (λ t, chr v +:+ t) <$> unquote_go fuel' rest
                | "u"%char =>
                    '(v, rest) ← read_digits unhex 16 4 0%N s'';
                    if ValidRune v
                    then (λ t, AppendRune v +:+ t) <$> unquote_go fuel' rest
                    else None
                | "U"%char =>
                    '(v, rest) ← read_digits unhex 16 8 0%N s'';
                    if ValidRune v
                    then (λ t, AppendRune v +:+ t) <$> unquote_go fuel' rest
                    else None
                | _ =>
                    v0 ← unoct d;
                    '(v, rest) ← read_digits unoct 8 2 v0 s'';
                    if (v <=? 255)%N
                    then (λ t, chr v +:+ t) <$> unquote_go fuel' rest
                    else None
                end
            end
          else if (b =? 10)%N || (b =? 34)%N then None
          else if (b <? utf8.RuneSelf)%N then String c <$> unquote_go fuel' s'
          else
            let '(r, size) := utf8.DecodeRuneInString s in
            (λ t, AppendRune r +:+ t)
              <$> unquote_go fuel' (drop_bytes size s)
      end
  end.

Definition unquote (s : string) : option string :=
  unquote_go (S (String.length s)) s.

Fixpoint lookup_loop (fuel : nat) (tag key : string) : option string :=
  match fuel with
  | O => None
  | S fuel' =>
      let tag := strings.trim_left (λ c, bool_decide (c = " "%char)) tag in
      let '(name, rest) := span name_char tag in
      match name, rest with
      | "", _ => None
      | _, String ":" (String "034" rest') =>
          '(qvalue, tag') ← scan_quoted rest';
          if decide (key = name) then unquote qvalue
          else lookup_loop fuel' tag' key
      | _, _ => None
      end
  end.

Definition Lookup (tag key : string) : option string :=
  lookup_loop (S (String.length tag)) tag key.

(* ---- camel case ---- *)

Definition is_word_sep (c : ascii) : bool :=
  bool_decide (c = "_"%char) || bool_decide (c = "-"%char)
  || bool_decide (c = " "%char).

Definition flush_rev (cur : string) : list string :=
  match cur with
  | "" => []
  | _ => [String.rev cur]
  end.

(* A word starts at every capital and after every separator; [cur] is
   the word being read, in reverse. *)
Fixpoint split_words (cur : string) (s : string) : list string :=
  match s with
  | "" => flush_rev cur
  | String c s' =>
      if is_word_sep c then (flush_rev cur ++ split_words "" s')%list
      else if is_upper c
      then (flush_rev cur ++ split_words (String c "") s')%list
      else split_words (String c cur) s'
  end.

Definition SplitIntoWords (s : string) : list string := split_words "" s.

Definition upper_first (s : string) : string :=
  match s with
  | "" => ""
  | String c s' => String (to_upper c) s'
  end.

Definition lower_first (s : string) : string :=
  match s with
  | "" => ""
  | String c s' => String (to_lower c) s'
  end.

Definition ToUpperCamel (s : string) : string :=
  String.concat "" (upper_first <$> SplitIntoWords s).

Definition ToLowerCamel (s : string) : string :=
  lower_first (ToUpperCamel s).

(* ---- genutil ---- *)

Fixpoint after_last (sep : ascii) (acc : string) (s : string) : string :=
  match s with
  | "" => String.rev acc
  | String c s' =>
      if decide (c = sep) then after_last sep "" s'
      else after_last sep (String c acc) s'
  end.

(* The declared name, or for an embedded field the name of its type. *)
Definition ParseFieldName (field : Field.t) : string :=
  match Field.Names field with
  | name :: _ => name
  | [] =>
      after_last "."%char ""
        (strings.trim_left (λ c, bool_decide (c = "*"%char))
           (Field.Type_ field))
  end.

Definition import_alias (spec : option string * string) : string :=
  match spec.1 with
  | Some name => name
  | None => after_last "/"%char "" spec.2
  end.

Definition AstFileToImportMap (file : File.t) : gmap string string :=
  list_to_map ((λ spec, (import_alias spec, spec.2)) <$> File.Imports file).

Fixpoint before_first (sep : ascii) (s : string) : option string :=
  match s with
  | "" => None
  | String c s' =>
      if decide (c = sep) then Some ""
      else String c <$> before_first sep s'
  end.

(* An identifier q.Name needs the import named q; a plain one needs
   nothing. *)
Definition ToTypePrinter (importMap : gmap string string)
    (pkgPath s : string) : result TypePrinter.t :=
  match before_first "."%char s with
  | None => Ok (TypePrinter.mk (λ _, s) (λ _, ∅))
  | Some q =>
      match importMap !! q with
      | Some path =>
          Ok (TypePrinter.mk (λ _, s)
                (λ to, if decide (to = path) then ∅ else {[q := path]}))
      | None => Err ("unknown package " +:+ q)
      end
  end.

Definition import_line (e : string * string) : string :=
  tab +:+ e.1 +:+ " " +:+ dq +:+ e.2 +:+ dq +:+ nl.

Definition GoFmtImports (importPackages : gmap string string) : string :=
  if bool_decide (importPackages = ∅) then ""
  else "import (" +:+ nl
       +:+ String.concat "" (import_line <$> map_to_list importPackages)
       +:+ ")".

(* The instance: [dirs] gives the walkers of a directory. *)
Definition externals (dirs : string → result (list Walker.t)) : Externals :=
  Build_Externals Letter Lookup ToUpperCamel ToLowerCamel SplitIntoWords
    (λ targetDir _, dirs targetDir)
    ParseFieldName AstFileToImportMap ToTypePrinter GoFmtImports Ok.

(* Two orders of ranging over a map. *)
Program Definition ascending : MapOrder :=
  {| range_order := map_to_list |}.
Next Obligation. done. Qed.

Program Definition descending : MapOrder :=
  {| range_order := λ m, reverse (map_to_list m) |}.
Next Obligation. intros m. apply reverse_Permutation. Qed.

(* A walker of a package whose types are all of the package or built
   in: every type expression prints as it is written. *)
Definition walker_of (name pkgPath : string) (specs : list TypeSpec.t)
    (file : File.t) : Walker.t :=
  Walker.mk (Package.mk name) pkgPath specs
    (λ _, GenDecl.mk None)
    (λ e, ToTypePrinter (AstFileToImportMap file) pkgPath
            (strings.trim_left (λ c, bool_decide (c = "*"%char)) e)
          ≫= λ tp, Ok (TypePrinter.mk (λ _, e) (TypePrinter.ImportPkgMap tp)))
    (λ _, file).

(* A writer that accepts everything and is not a Closer. *)
Definition buffer (pkg : Package.t) : Writer.t :=
  Writer.mk (λ p, Ok (String.length p)) false.

(* A file that can be closed. *)
Definition file (pkg : Package.t) : Writer.t :=
  Writer.mk (λ p, Ok (String.length p)) true.

End Reference.

(* --------------------------------------------------------------------- *)
(* Example inputs                                                        *)
(* --------------------------------------------------------------------- *)

Module Examples.

Import Reference.

(* `super:<dq><dq>` *)
Definition tag_super : string := "`super:" +:+ dq +:+ dq +:+ "`".

(* `required:<dq>\<dq>admin\<dq><dq>`: the constant is the Go string
   literal admin, with its quotes. *)
Definition tag_admin : string :=
  "`required:" +:+ dq +:+ bs +:+ dq +:+ "admin" +:+ bs +:+ dq +:+ dq +:+ "`".

(* `required:<dq><dq>` *)
Definition tag_required_empty : string := "`required:" +:+ dq +:+ dq +:+ "`".

(* `required:<dq>1<dq> super:<dq><dq>` *)
Definition tag_both : string :=
  "`required:" +:+ dq +:+ "1" +:+ dq +:+ " super:" +:+ dq +:+ dq +:+ "`".

(* `required:<dq>time.Second<dq>` *)
Definition tag_second : string :=
  "`required:" +:+ dq +:+ "time.Second" +:+ dq +:+ "`".

(* `required:<dq>missing.Value<dq>` *)
Definition tag_missing : string :=
  "`required:" +:+ dq +:+ "missing.Value" +:+ dq +:+ "`".

(* //genconstructor -p
   type Point struct { X int; Y int } *)
Definition Point : TypeSpec.t :=
  TypeSpec.mk "Point" (Some [Comment.mk "//genconstructor -p"])
    [Field.mk ["X"] "int" None; Field.mk ["Y"] "int" None].

Definition field_Base : Field.t :=
  Field.mk ["Base"] "*UserBase" (Some tag_super).
Definition field_Role : Field.t :=
  Field.mk ["Role"] "string" (Some tag_admin).

(* //genconstructor -e
   type AdminUser struct { Base *UserBase `super`; Role string `required` } *)
Definition AdminUser : TypeSpec.t :=
  TypeSpec.mk "AdminUser" (Some [Comment.mk "//genconstructor -e"])
    [field_Base; field_Role].

(* The same with the base embedded: the field is named UserBase. *)
Definition AdminUserEmbedded : TypeSpec.t :=
  TypeSpec.mk "AdminUser" (Some [Comment.mk "//genconstructor -e"])
    [Field.mk [] "*UserBase" (Some tag_super); field_Role].

(* //genconstructor -s
   type Shape struct { Name string `required:...` } *)
Definition Shape : TypeSpec.t :=
  TypeSpec.mk "Shape" (Some [Comment.mk "//genconstructor -s"])
    [Field.mk ["Name"] "string" (Some tag_required_empty)].

(* //genconstructor
   type Timer struct {
     Clock   clock.Clock   `required:...`   (empty constant)
     Step    sync.Duration `required:...`   (constant time.Second)
     Comment string
   }
   The type of Step names the package sync, its constant the package
   time. *)
Definition field_Clock : Field.t :=
  Field.mk ["Clock"] "clock.Clock" (Some tag_required_empty).
Definition field_Step : Field.t :=
  Field.mk ["Step"] "sync.Duration" (Some tag_second).
Definition Timer : TypeSpec.t :=
  TypeSpec.mk "Timer" (Some [Comment.mk "//genconstructor"])
    [field_Clock; field_Step; Field.mk ["Comment"] "string" None].

(* A struct whose constant names a package the file does not import. *)
Definition Broken : TypeSpec.t :=
  TypeSpec.mk "Broken" (Some [Comment.mk "//genconstructor"])
    [Field.mk ["V"] "int" (Some tag_missing)].

Definition imports_none : File.t := File.mk [].
Definition imports_timer : File.t :=
  File.mk [(None, "example.com/clock"); (None, "time"); (None, "sync")].

Definition geo : Walker.t :=
  walker_of "geo" "example.com/geo" [Point] imports_none.
Definition users : Walker.t :=
  walker_of "users" "example.com/users" [AdminUser] imports_none.
Definition timers : Walker.t :=
  walker_of "timers" "example.com/timers" [Timer] imports_timer.
Definition broken : Walker.t :=
  walker_of "broken" "example.com/broken" [Broken] imports_none.

(* The directories of the examples. *)
Definition dirs (targetDir : string) : result (list Walker.t) :=
  if decide (targetDir = "geo") then Ok [geo]
  else if decide (targetDir = "users") then Ok [users]
  else if decide (targetDir = "timers") then Ok [timers]
  else if decide (targetDir = "all") then Ok [geo; broken; users]
  else Err "no such directory".

Definition ext : Externals := externals dirs.

(* The printer a call returned. *)
Definition printer_of (r : result TypePrinter.t) : TypePrinter.t :=
  match r with
  | Ok tp => tp
  | Err _ => TypePrinter.mk (λ _, "") (λ _, ∅)
  end.

End Examples.

(* --------------------------------------------------------------------- *)
(* Further notions and examples                                          *)
(* --------------------------------------------------------------------- *)

(* A call of one of the two exported option constructors. *)
Inductive OptionCall : Type :=
| CallFileFilter (fileFilter : FileInfo → bool)
| CallGeneratorName (generatorName : string).

Definition to_Option (c : OptionCall) : Option :=
  match c with
  | CallFileFilter fileFilter => WithFileFilter fileFilter
  | CallGeneratorName generatorName => WithGeneratorName generatorName
  end.

Definition call_name (c : OptionCall) : option string :=
  match c with
  | CallFileFilter _ => None
  | CallGeneratorName generatorName => Some generatorName
  end.

Definition call_filter (c : OptionCall) : option (FileInfo → bool) :=
  match c with
  | CallFileFilter fileFilter => Some fileFilter
  | CallGeneratorName _ => None
  end.

(* What Run does with the writer of a group it writes: it requests the
   writer and calls Write once. *)
Definition request (o : Package.t * string) : list Event :=
  [EvNewWriter o.1; EvWrite o.1 o.2].

(* The runes of a string all satisfy f. *)
Definition all_runes (f : rune → bool) (s : string) : Prop :=
  Forall (λ x, f x.1 = true) (utf8.range s).

(* A run of runes of the list, with what is before and after it, is
   bounded by f: it is not empty, none of its runes satisfies f, and it
   is not part of a longer such run. *)
Definition run_between (f : rune → bool)
    (pre run post : list (rune * string)) : Prop :=
  run ≠ []
  ∧ Forall (λ x, f x.1 = false) run
  ∧ (pre = [] ∨ ∃ pre' x, pre = pre' ++ [x] ∧ f x.1 = true)
  ∧ (post = [] ∨ ∃ x post', post = x :: post' ∧ f x.1 = true).

Section MoreNotions.

Context `{Ext : Externals}.

(* The constructor of a marked struct, from the struct alone: its name,
   its doc comments and its tagged fields. *)
Definition constructor_of (walker : Walker.t) (spec : TypeSpec.t) : string :=
  let fl := scan_docs (collect_docs walker spec) in
  constructor_tmpl
    (tmplParam.mk
       (TypeSpec.Name spec)
       (interfaceName_of fl (base_field_name (TypeSpec.Fields spec))
          (TypeSpec.Name spec))
       (field_info walker
          <$> filter (λ f, tagged f = true) (TypeSpec.Fields spec))
       (Flags.hasPointerOpts fl)
       (Flags.hasSuperOpts fl)
       (Flags.hasExtendsOpts fl)).

End MoreNotions.

(* The packages whose writer Run requested, in order. *)
Definition requested_packages (tr : list Event) : list Package.t :=
  omap (λ ev, match ev with EvNewWriter pkg => Some pkg | _ => None end) tr.

Section GroupNotions.

Context `{Ext : Externals}.
Variable ord : MapOrder.

(* The group is processed without error and its body is not empty. *)
Definition group_has_body (walker : Walker.t) : bool :=
  match group_body ord walker with
  | Ok (body, _) => negb (bool_decide (String.length body = 0))
  | Err _ => false
  end.

End GroupNotions.

Module MoreExamples.

(* `required:<dq>42<dq>` *)
Definition tag_42 : string :=
  "`required:" +:+ Reference.dq +:+ "42" +:+ Reference.dq +:+ "`".

Definition field_Answer : Field.t := Field.mk ["Answer"] "int" (Some tag_42).

(* // Plain has no marker.
   type Plain struct { V int `required:...` } *)
Definition Plain : TypeSpec.t :=
  TypeSpec.mk "Plain" (Some [Comment.mk "// Plain has no marker."])
    [Field.mk ["V"] "int" (Some Examples.tag_missing)].

(* //genconstructor -e
   type AdminUser struct { *User `super` } *)
Definition field_User : Field.t :=
  Field.mk [] "*User" (Some Examples.tag_super).
Definition AdminUser : TypeSpec.t :=
  TypeSpec.mk "AdminUser" (Some [Comment.mk "//genconstructor -e"])
    [field_User].

Definition plain : Walker.t :=
  Reference.walker_of "plain" "example.com/plain" [Plain]
    Examples.imports_none.

(* A package with two marked structs and one without marker. *)
Definition mixed : Walker.t :=
  Reference.walker_of "mixed" "example.com/mixed"
    [Examples.Timer; Plain; Examples.Point] Examples.imports_timer.

(* Two files of one package import two packages under one alias:
     file_x: import "example.com/x/a"
             //genconstructor
             type ClashX struct { T a.T `required:...` }  (empty constant)
     file_y: import "example.com/y/a"
             //genconstructor
             type ClashY struct { U a.U `required:...` }  (empty constant) *)
Definition file_x : File.t := File.mk [(None, "example.com/x/a")].
Definition file_y : File.t := File.mk [(None, "example.com/y/a")].
Definition field_T : Field.t :=
  Field.mk ["T"] "a.T" (Some Examples.tag_required_empty).
Definition field_U : Field.t :=
  Field.mk ["U"] "a.U" (Some Examples.tag_required_empty).
Definition ClashX : TypeSpec.t :=
  TypeSpec.mk "ClashX" (Some [Comment.mk "//genconstructor"]) [field_T].
Definition ClashY : TypeSpec.t :=
  TypeSpec.mk "ClashY" (Some [Comment.mk "//genconstructor"]) [field_U].
Definition file_of_type (e : Expr) : File.t :=
  if decide (e = "a.T") then file_x else file_y.
Definition clash : Walker.t :=
  Walker.mk (Package.mk "clash") "example.com/clash" [ClashX; ClashY]
    (λ _, GenDecl.mk None)
    (λ e, Reference.ToTypePrinter
            (Reference.AstFileToImportMap (file_of_type e))
            "example.com/clash" e)
    (λ field, file_of_type (Field.Type_ field)).

(* //genconstructor -e
   type AdminUser struct { *User `required:<dq>nil<dq> super:<dq><dq>` } *)
Definition tag_nil_super : string :=
  "`required:" +:+ Reference.dq +:+ "nil" +:+ Reference.dq
  +:+ " super:" +:+ Reference.dq +:+ Reference.dq +:+ "`".
Definition field_User_nil : Field.t := Field.mk [] "*User" (Some tag_nil_super).
Definition AdminUserNil : TypeSpec.t :=
  TypeSpec.mk "AdminUser" (Some [Comment.mk "//genconstructor -e"])
    [field_User_nil].

(* format.Source refuses every text. *)
Definition ext_unformattable : Externals :=
  Build_Externals Reference.Letter Reference.Lookup Reference.ToUpperCamel
    Reference.ToLowerCamel Reference.SplitIntoWords
    (λ targetDir _, Examples.dirs targetDir)
    Reference.ParseFieldName Reference.AstFileToImportMap
    Reference.ToTypePrinter Reference.GoFmtImports
    (λ _, Err "expected declaration").

End MoreExamples.

(* ===================================================================== *)
(* Properties                                                            *)
(* ===================================================================== *)

(* --------------------------------------------------------------------- *)
(* Strings                                                               *)
(* --------------------------------------------------------------------- *)

Lemma string_app_nil_r (s : string) : s +:+ "" = s.
Proof.
  induction s as [|c s IH]; [done|].
  change (String c (s +:+ "") = String c s). by rewrite IH.
Qed.

Lemma string_app_assoc (s1 s2 s3 : string) :
  (s1 +:+ s2) +:+ s3 = s1 +:+ s2 +:+ s3.
Proof.
  induction s1 as [|c s1 IH]; [done|].
  change (String c ((s1 +:+ s2) +:+ s3) = String c (s1 +:+ s2 +:+ s3)).
  by rewrite IH.
Qed.

Lemma string_concat_cons (s : string) (l : list string) :
  String.concat "" (s :: l) = s +:+ String.concat "" l.
Proof. destruct l; [symmetry; apply string_app_nil_r|done]. Qed.

Lemma string_concat_app (l1 l2 : list string) :
  String.concat "" (l1 ++ l2) = String.concat "" l1 +:+ String.concat "" l2.
Proof.
  induction l1 as [|s l1 IH]; [done|].
  rewrite <- app_comm_cons, !string_concat_cons, IH.
  by rewrite string_app_assoc.
Qed.

(* --------------------------------------------------------------------- *)
(* Runes and fields                                                      *)
(* --------------------------------------------------------------------- *)

Lemma decode_size_pos (c : ascii) (s : string) :
  ∃ r n, utf8.DecodeRuneInString (String c s) = (r, S n).
Proof.
  unfold utf8.DecodeRuneInString.
  repeat match goal with
         | |- context [if ?b then _ else _] => destruct b
         | |- context [match ?x with "" => _ | String _ _ => _ end] =>
             destruct x
         end; eauto.
Qed.

(* Every rune of a range is read from at least one byte. *)
Lemma range_from_bytes (skip : nat) (s : string) :
  Forall (λ x : rune * string, x.2 ≠ "") (utf8.range_from skip s).
Proof.
  revert skip. induction s as [|c s IH]; intros skip; [constructor|].
  cbn [utf8.range_from]. destruct skip as [|k]; [|apply IH].
  destruct (decode_size_pos c s) as (r & n & ->).
  constructor; [discriminate|apply IH].
Qed.

Lemma range_bytes (s : string) :
  Forall (λ x : rune * string, x.2 ≠ "") (utf8.range s).
Proof. apply range_from_bytes. Qed.

Lemma string_app_not_empty (s t : string) : t ≠ "" → s +:+ t ≠ "".
Proof. intros Ht. destruct s; [done|discriminate]. Qed.

Lemma concat_bytes_snoc (run : list (rune * string)) (r : rune)
    (bytes : string) :
  String.concat "" (run ++ [(r, bytes)]).*2
  = String.concat "" run.*2 +:+ bytes.
Proof.
  rewrite fmap_app, string_concat_app. cbn [fmap list_fmap].
  by rewrite string_concat_cons, string_app_nil_r.
Qed.

(* The fields of strings.FieldsFunc are the runs of runes not satisfying
   f that are bounded by runes satisfying f or by the ends of the
   string. *)
Lemma fields_from_runs (f : rune → bool) (rs pre run : list (rune * string)) :
  Forall (λ x, x.2 ≠ "") rs →
  Forall (λ x, f x.1 = false) run →
  (pre = [] ∨ ∃ pre' x, pre = pre' ++ [x] ∧ f x.1 = true) →
  (run = [] ↔ String.concat "" run.*2 = "") →
  Forall (λ tok, ∃ pre' run' post',
            pre ++ run ++ rs = pre' ++ run' ++ post'
            ∧ tok = String.concat "" run'.*2
            ∧ tok ≠ ""
            ∧ run_between f pre' run' post')
    (strings.fields_from f (String.concat "" run.*2) rs).
Proof.
  intros Hbytes. revert pre run.
  assert (∀ pre run post,
            Forall (λ x, f x.1 = false) run →
            (pre = [] ∨ ∃ pre' x, pre = pre' ++ [x] ∧ f x.1 = true) →
            (run = [] ↔ String.concat "" run.*2 = "") →
            (post = [] ∨ ∃ x post', post = x :: post' ∧ f x.1 = true) →
            Forall (λ tok, ∃ pre' run' post',
                      pre ++ run ++ post = pre' ++ run' ++ post'
                      ∧ tok = String.concat "" run'.*2
                      ∧ tok ≠ ""
                      ∧ run_between f pre' run' post')
              (strings.flush (String.concat "" run.*2))) as Hflush.
  { intros pre run post Hrun Hpre Hempty Hpost. unfold strings.flush.
    destruct (String.concat "" run.*2) eqn:Hcur; [constructor|].
    apply Forall_singleton. exists pre, run, post.
    rewrite Hcur. split; [done|]. split; [done|]. split; [done|].
    split; [|done]. intros Hnil. apply Hempty in Hnil. congruence. }
  induction Hbytes as [|[r bytes] rs Hb _ IH]; intros pre run Hrun Hpre Hempty;
    cbn [strings.fields_from].
  - apply Hflush; auto.
  - cbn [snd] in Hb. destruct (f r) eqn:Hr.
    + apply Forall_app. split.
      * apply Hflush; [done..|]. right. by exists (r, bytes), rs.
      * specialize (IH (pre ++ run ++ [(r, bytes)]) []).
        cbn [fmap list_fmap] in IH.
        eapply Forall_impl; [apply IH|].
        -- constructor.
        -- right. exists (pre ++ run), (r, bytes).
           split; [by rewrite <- app_assoc|done].
        -- done.
        -- intros tok (pre' & run' & post' & Heq & ?).
           exists pre', run', post'. split; [|done].
           rewrite <- Heq. cbn [app]. by rewrite <- !app_assoc.
    + rewrite <- (concat_bytes_snoc run r bytes).
      eapply Forall_impl; [apply (IH pre (run ++ [(r, bytes)]))|].
      * apply Forall_app. split; [done|]. by apply Forall_singleton.
      * done.
      * rewrite concat_bytes_snoc. split.
        -- intros Hnil. by destruct run.
        -- intros Hnil. by apply string_app_not_empty in Hnil.
      * intros tok (pre' & run' & post' & Heq & ?).
        exists pre', run', post'. split; [|done].
        rewrite <- Heq. by rewrite <- !app_assoc.
Qed.

Lemma fields_from_separators (f : rune → bool) (rs : list (rune * string)) :
  Forall (λ x, f x.1 = true) rs → strings.fields_from f "" rs = [].
Proof.
  induction 1 as [|[r bytes] rs Hr _ IH]; [done|].
  cbn [strings.fields_from]. cbn [fst] in Hr. by rewrite Hr.
Qed.

Section Identifiers.

Context `{Ext : Externals}.

Lemma const_sep_ident_rune (r : rune) : const_sep r = negb (ident_rune r).
Proof.
  unfold const_sep, ident_rune.
  by destruct (unicode.IsLetter Letter r), (r =? 46)%N, (r =? 95)%N,
    (r =? 45)%N.
Qed.

(* The scan of the code gives the identifiers of the specification. *)
Lemma fields_from_idents (rs : list (rune * string)) (cur : string) :
  Forall (λ x, x.2 ≠ "") rs →
  strings.fields_from const_sep cur rs
  = idents_from (match cur with "" => None | _ => Some cur end) rs.
Proof.
  intros Hbytes. revert cur.
  induction Hbytes as [|[r bytes] rs Hb _ IH]; intros cur;
    cbn [strings.fields_from idents_from fst snd].
  - by destruct cur.
  - cbn [snd] in Hb. rewrite const_sep_ident_rune.
    destruct (ident_rune r); cbn [negb].
    + rewrite IH. destruct cur as [|c cur]; cbn [from_option].
      * change ("" +:+ bytes) with bytes. by destruct bytes.
      * done.
    + rewrite (IH ""). by destruct cur.
Qed.

Lemma FieldsFunc_idents (constValue : string) :
  strings.FieldsFunc constValue const_sep = idents_of constValue.
Proof. apply (fields_from_idents _ ""), range_bytes. Qed.

End Identifiers.

(* --------------------------------------------------------------------- *)
(* Loops with errors                                                     *)
(* --------------------------------------------------------------------- *)

Section FoldlM.

Context {A S : Type}.
Implicit Types (step : S → A → result S) (l : list A).

Lemma foldlM_app step st l1 l2 :
  foldlM step st (l1 ++ l2) = (foldlM step st l1 ≫= λ st', foldlM step st' l2).
Proof.
  revert st. induction l1 as [|x l1 IH]; intros st; simpl; [done|].
  destruct (step st x) as [st'|e]; simpl; [apply IH|done].
Qed.

(* The first failing iteration ends the loop with its error. *)
Lemma foldlM_first_error step st l1 x l2 st' e :
  foldlM step st l1 = Ok st' → step st' x = Err e →
  foldlM step st (l1 ++ x :: l2) = Err e.
Proof.
  intros H1 Hx. rewrite foldlM_app, H1. simpl. by rewrite Hx.
Qed.

Lemma foldlM_ext step1 step2 st l :
  (∀ s x, step1 s x = step2 s x) → foldlM step1 st l = foldlM step2 st l.
Proof.
  intros Hext. revert st. induction l as [|x l IH]; intros st; simpl; [done|].
  rewrite Hext. destruct (step2 st x); simpl; [apply IH|done].
Qed.

(* An invariant of the loop, with the elements seen so far. *)
Lemma foldlM_invariant (I : list A → S → Prop) step st l st' :
  I [] st →
  (∀ seen x s s', seen ++ [x] `prefix_of` l →
     I seen s → step s x = Ok s' → I (seen ++ [x]) s') →
  foldlM step st l = Ok st' → I l st'.
Proof.
  intros H0 Hstep.
  assert (∀ rest seen s, seen ++ rest = l → I seen s →
            foldlM step s rest = Ok st' → I l st') as Hgen.
  { induction rest as [|x rest IH]; intros seen s Hl Hs Hf; simpl in Hf.
    - rewrite app_nil_r in Hl. by simplify_eq.
    - destruct (step s x) as [s1|e] eqn:Hx; simpl in Hf; [|done].
      apply (IH (seen ++ [x]) s1); [by rewrite <- app_assoc| |done].
      apply (Hstep seen x s s1); [|done..].
      exists rest. by rewrite <- Hl, <- app_assoc. }
  intros Hf. by apply (Hgen l [] st).
Qed.

End FoldlM.

(* --------------------------------------------------------------------- *)
(* Ranging over a map in any order                                       *)
(* --------------------------------------------------------------------- *)

Lemma fold_left_insert_foldr (l : list (string * string))
    (acc : gmap string string) :
  fold_left (λ acc e, <[e.1 := e.2]> acc) l acc
  = foldr (λ e acc, <[e.1 := e.2]> acc) acc (reverse l).
Proof.
  revert acc. induction l as [|e l IH]; intros acc; simpl; [done|].
  by rewrite IH, reverse_cons, foldr_app.
Qed.

Lemma foldr_insert_union (l : list (string * string))
    (acc : gmap string string) :
  foldr (λ e acc, <[e.1 := e.2]> acc) acc l = list_to_map l ∪ acc.
Proof.
  induction l as [|[n pkg] l IH]; simpl.
  - by rewrite (left_id_L ∅ (∪)).
  - by rewrite IH, insert_union_l.
Qed.

(* The loop that copies a map into importPackages computes the union in
   which the copied map wins, whatever the order of the range. *)
Lemma merge_imports_union (ord : MapOrder) (src acc : gmap string string) :
  merge_imports ord src acc = src ∪ acc.
Proof.
  unfold merge_imports.
  rewrite fold_left_insert_foldr, foldr_insert_union. f_equal.
  assert (reverse (range_order ord src) ≡ₚ map_to_list src) as Hperm.
  { etrans; [apply reverse_Permutation|apply range_order_perm]. }
  trans (list_to_map (M := gmap string string) (map_to_list src));
    [|apply list_to_map_to_list].
  apply list_to_map_proper; [|done].
  rewrite Hperm. apply NoDup_fst_map_to_list.
Qed.

Lemma merge_imports_order (ord1 ord2 : MapOrder) src acc :
  merge_imports ord1 src acc = merge_imports ord2 src acc.
Proof. by rewrite !merge_imports_union. Qed.

(* --------------------------------------------------------------------- *)
(* match                                                                 *)
(* --------------------------------------------------------------------- *)

Lemma elem_of_fold_left_union (b : list string) (mb : gset string) x :
  x ∈ fold_left (λ mb x, {[x]} ∪ mb) b mb ↔ x ∈ b ∨ x ∈ mb.
Proof.
  revert mb. induction b as [|y b IH]; intros mb; simpl.
  - set_solver.
  - rewrite IH. set_solver.
Qed.

Lemma elem_of_match_set (b : list string) x : x ∈ match_set b ↔ x ∈ b.
Proof. unfold match_set. rewrite elem_of_fold_left_union. set_solver. Qed.

Lemma match_scan_filter (mb : gset string) (a : list string) :
  match_scan mb a = filter (λ x, x ∈ mb) a.
Proof.
  induction a as [|x a IH]; simpl; [done|].
  rewrite filter_cons, IH. by destruct (decide (x ∈ mb)).
Qed.

(* match keeps, in the order of a, the elements of a that occur in b. *)
Lemma match_filter (a b : list string) :
  match_ a b = filter (λ x, x ∈ b) a.
Proof.
  unfold match_. rewrite match_scan_filter.
  apply list_filter_iff. intros x. apply elem_of_match_set.
Qed.

Lemma match_duplicates :
  match_ ["User"; "Base"; "User"] ["Admin"; "User"] = ["User"; "User"].
Proof. by vm_compute. Qed.

Lemma concat_nil_sep (l : list string) :
  Forall (λ s, s = "") l → String.concat "" l = "".
Proof.
  induction 1 as [|s l -> _ IH]; simpl; [done|].
  destruct l; [done|]. by rewrite IH.
Qed.

(* --------------------------------------------------------------------- *)
(* The option scan                                                       *)
(* --------------------------------------------------------------------- *)

Lemma scan_opts_first (ss : list string) :
  scan_opts ss = flags_of_token (snd <$> list_find is_opt ss).
Proof.
  induction ss as [|s ss IH]; [done|].
  cbn [scan_opts list_find]. unfold is_opt at 1.
  destruct (decide (s = pointerOpts)) as [->|Hp].
  { rewrite decide_True by (by left). done. }
  destruct (decide (s = superOpts)) as [->|Hs].
  { rewrite decide_True by (right; by left). done. }
  destruct (decide (s = extendsOpts)) as [->|He].
  { rewrite decide_True by (right; by right). done. }
  rewrite decide_False by (intros [?|[?|?]]; done).
  rewrite IH. by destruct (list_find is_opt ss) as [[i x]|].
Qed.

Lemma scan_docs_first (docs : list Comment.t) :
  scan_docs docs = first_option_flags docs.
Proof.
  unfold first_option_flags.
  induction docs as [|comment docs IH]; [done|].
  cbn [scan_docs list_find].
  destruct (decide (is_marker comment)) as [Hm|Hm].
  - unfold is_marker in Hm. rewrite Hm. simpl. apply scan_opts_first.
  - unfold is_marker in Hm. apply not_true_is_false in Hm. rewrite Hm.
    rewrite IH. by destruct (list_find is_marker docs) as [[i x]|].
Qed.

Lemma flags_of_token_count tok : (flag_count (flags_of_token tok) ≤ 1)%nat.
Proof.
  destruct tok as [s|]; [|by cbv; lia].
  unfold flag_count; simpl.
  destruct (decide (s = pointerOpts)) as [->|?]; [by cbv; lia|].
  rewrite (bool_decide_eq_false_2 (s = pointerOpts)) by done.
  destruct (decide (s = superOpts)) as [->|?]; [by cbv; lia|].
  rewrite (bool_decide_eq_false_2 (s = superOpts)) by done.
  simpl. destruct (bool_decide (s = extendsOpts)); simpl; lia.
Qed.

Lemma scan_docs_count docs : (flag_count (scan_docs docs) ≤ 1)%nat.
Proof.
  rewrite scan_docs_first. unfold first_option_flags.
  destruct (list_find is_marker docs) as [[i c]|]; [|by cbv; lia].
  apply flags_of_token_count.
Qed.

Lemma scan_docs_hasMarker (docs : list Comment.t) :
  Flags.hasMarker (scan_docs docs) = bool_decide (Exists is_marker docs).
Proof.
  induction docs as [|comment docs IH].
  - cbn [scan_docs Flags.hasMarker]. symmetry.
    apply bool_decide_eq_false_2. by intros ?%Exists_nil.
  - cbn [scan_docs]. destruct (decide (is_marker comment)) as [Hm|Hm].
    + pose proof Hm as Hm'. unfold is_marker in Hm'. rewrite Hm'.
      rewrite scan_opts_first.
      rewrite bool_decide_eq_true_2 by (by left).
      by destruct (list_find is_opt _) as [[??]|].
    + pose proof Hm as Hm'. unfold is_marker in Hm'.
      apply not_true_is_false in Hm'. rewrite Hm', IH.
      apply bool_decide_ext. rewrite Exists_cons. tauto.
Qed.

Lemma scan_opts_flags (toks : list string) :
  (Flags.hasPointerOpts (scan_opts toks) = true
   ↔ first_option_is pointerOpts toks)
  ∧ (Flags.hasSuperOpts (scan_opts toks) = true
     ↔ first_option_is superOpts toks)
  ∧ (Flags.hasExtendsOpts (scan_opts toks) = true
     ↔ first_option_is extendsOpts toks).
Proof.
  assert (∀ o s ss, is_opt s → first_option_is o (s :: ss) ↔ o = s) as Hhead.
  { intros o s ss Hs. split.
    - intros ([|t pre] & post & Heq & Hpre); simplify_eq/=; [done|].
      by apply Forall_cons in Hpre as [? _].
    - intros ->. by exists [], ss. }
  assert (∀ o s ss, ¬ is_opt s → is_opt o →
            first_option_is o (s :: ss) ↔ first_option_is o ss) as Htail.
  { intros o s ss Hs Ho. split.
    - intros ([|t pre] & post & Heq & Hpre); simplify_eq/=; [done|].
      apply Forall_cons in Hpre as [_ Hpre]. by exists pre, post.
    - intros (pre & post & -> & Hpre). exists (s :: pre), post.
      split; [done|]. by constructor. }
  assert (is_opt pointerOpts) as Hp by (by left).
  assert (is_opt superOpts) as Hs by (right; by left).
  assert (is_opt extendsOpts) as He by (right; by right).
  induction toks as [|s ss IH].
  - cbn [scan_opts Flags.hasPointerOpts Flags.hasSuperOpts
         Flags.hasExtendsOpts].
    repeat split; try done; by intros ([|??] & ? & ? & _).
  - cbn [scan_opts].
    destruct (decide (s = pointerOpts)) as [->|Hnp].
    { rewrite !Hhead by done. by cbn. }
    destruct (decide (s = superOpts)) as [->|Hns].
    { rewrite !Hhead by done. by cbn. }
    destruct (decide (s = extendsOpts)) as [->|Hne].
    { rewrite !Hhead by done. by cbn. }
    rewrite !Htail by (try done; intros [?|[?|?]]; done). exact IH.
Qed.

(** C6 (as amended): for every list of doc comments, the flags Run
    computes are those of the first comment that carries the marker and,
    on that comment, of the first whitespace-separated token that is one
    of -p, -s, -e (a token being a run of runes that are not white space,
    bounded by white space or by the ends of the comment); scanning
    stops there, so at most one of the three
    flags is set.  In particular, on a line with several options, each
    flag is set exactly when its option is the first of the options
    -p, -s, -e on the line: a line with both -s and -e picks -s only
    when -s comes before -e and no -p comes before it. *)
Theorem option_first_match_wins (docs : list Comment.t) :
  scan_docs docs = first_option_flags docs
  ∧ (flag_count (scan_docs docs) ≤ 1)%nat
  ∧ Flags.hasMarker (scan_docs docs) = bool_decide (Exists is_marker docs)
  ∧ ∀ i comment,
      list_find is_marker docs = Some (i, comment) →
      let toks := strings.Fields (Comment.Text comment) in
      (Flags.hasPointerOpts (scan_docs docs) = true
       ↔ first_option_is pointerOpts toks)
      ∧ (Flags.hasSuperOpts (scan_docs docs) = true
         ↔ first_option_is superOpts toks)
      ∧ (Flags.hasExtendsOpts (scan_docs docs) = true
         ↔ first_option_is extendsOpts toks)
      ∧ Forall (λ tok, ∃ pre run post,
                  utf8.range (Comment.Text comment) = pre ++ run ++ post
                  ∧ tok = String.concat "" run.*2
                  ∧ tok ≠ ""
                  ∧ run_between unicode.IsSpace pre run post) toks.
Proof.
  split; [apply scan_docs_first|]. split; [apply scan_docs_count|]. split.
  - rewrite scan_docs_first. unfold first_option_flags.
    destruct (list_find is_marker docs) as [[i c]|] eqn:Hf.
    + apply list_find_Some in Hf as (Hi & Hc & _).
      rewrite bool_decide_eq_true_2.
      * by destruct (list_find is_opt _) as [[??]|].
      * apply Exists_exists. exists c. split; [|done].
        by eapply list_elem_of_lookup_2.
    + apply list_find_None in Hf. rewrite bool_decide_eq_false_2; [done|].
      intros Hex. apply Exists_exists in Hex as (c & Hin & Hc).
      rewrite Forall_forall in Hf. by apply (Hf c).
  - intros i comment Hfind toks.
    assert (scan_docs docs = scan_opts toks) as ->.
    { rewrite scan_docs_first. unfold first_option_flags.
      rewrite Hfind. symmetry. apply scan_opts_first. }
    destruct (scan_opts_flags toks) as (Hp & Hs & He).
    split; [done|]. split; [done|]. split; [done|].
    apply (fields_from_runs unicode.IsSpace
             (utf8.range (Comment.Text comment)) [] []);
      [apply range_bytes|constructor|by left|done].
Qed.

(** C6, counterexample: the comment //genconstructor -e -s contains both
    -s and -e, and the scan sets extends, not super. *)
Lemma both_options_may_pick_extends :
  ¬ (∀ text : string,
       is_marker (Comment.mk text) →
       superOpts ∈ strings.Fields text → extendsOpts ∈ strings.Fields text →
       Flags.hasSuperOpts (scan_docs [Comment.mk text]) = true).
Proof.
  intros H. specialize (H "//genconstructor -e -s").
  vm_compute in H.
  assert (false = true) as Hft; [|done].
  apply H; [done|..].
  - apply list_elem_of_lookup. by exists 2.
  - apply list_elem_of_lookup. by exists 1.
Qed.

Lemma super_before_extends :
  scan_docs [Comment.mk "//genconstructor -s -e"]
  = Flags.mk true false true false.
Proof. by vm_compute. Qed.

Lemma pointer_before_both :
  scan_docs [Comment.mk "//genconstructor -p -s -e"]
  = Flags.mk true true false false.
Proof. by vm_compute. Qed.

(* --------------------------------------------------------------------- *)
(* Return type and address of the literal                                *)
(* --------------------------------------------------------------------- *)

Section Synthesis.

Context `{Ext : Externals}.

Lemma scan_docs_exclusive docs :
  match Flags.hasPointerOpts (scan_docs docs),
        Flags.hasSuperOpts (scan_docs docs),
        Flags.hasExtendsOpts (scan_docs docs) with
  | true, true, _ | true, _, true | _, true, true => False
  | _, _, _ => True
  end.
Proof.
  pose proof (scan_docs_count docs) as Hc. unfold flag_count in Hc.
  destruct (Flags.hasPointerOpts _), (Flags.hasSuperOpts _),
    (Flags.hasExtendsOpts _); simpl in Hc; try done; lia.
Qed.

(** C4 (as amended): for every marked type the rendered constructor has,
    with the pointer option, the return type *T and the literal &T{..};
    with the super or the extends option, the interface name as return
    type and again the literal &T{..}; with no option, the return type T
    and the literal T{..} without address-of. *)
Theorem return_type_and_address (docs : list Comment.t) (spec : TypeSpec.t)
    (fs : FieldLoop.t) :
  let p := spec_param (scan_docs docs) spec fs in
  let T := TypeSpec.Name spec in
  constructor_tmpl p =
    nl +:+ "func " +:+ constructor_name p +:+ "("
    +:+ tmpl_params p
    +:+ nl +:+ tabs 6 +:+ ") "
    +:+ (if tmplParam.Pointer p then "*" +:+ T
         else if tmplParam.Super p || tmplParam.Extends p
              then tmplParam.InterfaceName p
              else T)
    +:+ " {"
    +:+ nl +:+ tabs 7 +:+ "return "
    +:+ (if tmplParam.Pointer p then "&"
         else if tmplParam.Super p || tmplParam.Extends p then "&"
              else "")
    +:+ T +:+ "{"
    +:+ tmpl_assigns p
    +:+ nl +:+ tabs 7 +:+ "}"
    +:+ nl +:+ tabs 6 +:+ "}"
    +:+ nl +:+ tabs 5.
Proof.
  intros p T. unfold constructor_tmpl, tmpl_return_type, tmpl_addr.
  pose proof (scan_docs_exclusive docs) as Hx.
  subst p T. unfold spec_param. cbn [tmplParam.Pointer tmplParam.Super
    tmplParam.Extends tmplParam.StructName tmplParam.InterfaceName].
  destruct (Flags.hasPointerOpts _), (Flags.hasSuperOpts _),
    (Flags.hasExtendsOpts _); try done.
Qed.

(* ------------------------------------------------------------------- *)
(* The interface name                                                  *)
(* ------------------------------------------------------------------- *)

Variable ord : MapOrder.

Lemma field_step_untagged walker st field :
  tagged field = false → field_step ord walker st field = Ok st.
Proof.
  unfold tagged, has_required_tag, has_super_tag, field_step.
  destruct (Field.Tag field) as [value|]; [|done].
  intros [-> ->]%orb_false_elim. done.
Qed.

(* What a successful step on a tagged field does to the list of
   FieldInfo and to superName. *)
Lemma field_step_tagged walker st field st' :
  tagged field = true → field_step ord walker st field = Ok st' →
  ∃ tp, Walker.ToTypePrinter walker (Field.Type_ field) = Ok tp
    ∧ FieldLoop.fieldInfos st' =
        FieldLoop.fieldInfos st ++
        [FieldInfo.mk (TypePrinter.Print tp (Walker.PkgPath walker))
           (ParseFieldName field) (const_value field)]
    ∧ FieldLoop.superName st' =
        (if has_super_tag field then ParseFieldName field
         else FieldLoop.superName st).
Proof.
  unfold tagged, has_required_tag, has_super_tag, const_value, field_step.
  destruct (Field.Tag field) as [value|]; [|done].
  intros Ht. rewrite <- negb_orb, Ht. cbn [negb].
  destruct (Walker.ToTypePrinter walker (Field.Type_ field)) as [tp|e];
    [|done].
  cbn [mbind result_bind].
  destruct (negb (bool_decide (_ = ""))).
  - destruct (foldlM _ _ _) as [imports|e]; [|done].
    cbn [mbind result_bind]. intros [= <-]. by exists tp.
  - intros [= <-]. by exists tp.
Qed.

Lemma fields_loop_superName walker st fields st' :
  foldlM (field_step ord walker) st fields = Ok st' →
  FieldLoop.superName st' =
    default (FieldLoop.superName st)
      (last (ParseFieldName <$> filter (λ f, has_super_tag f = true) fields)).
Proof.
  revert st. induction fields as [|field fields IH]; intros st; simpl.
  - by intros [= <-].
  - destruct (field_step ord walker st field) as [st1|e] eqn:Hstep;
      [|done].
    cbn [mbind result_bind]. intros Hrest. rewrite (IH _ Hrest).
    rewrite filter_cons.
    destruct (tagged field) eqn:Ht.
    + destruct (field_step_tagged _ _ _ _ Ht Hstep) as (tp & _ & _ & ->).
      destruct (has_super_tag field) eqn:Hs.
      * rewrite decide_True by done. rewrite fmap_cons, last_cons.
        by destruct (last _).
      * rewrite decide_False by done. done.
    + rewrite field_step_untagged in Hstep by done. simplify_eq.
      apply orb_false_elim in Ht as [_ Hs]. rewrite Hs.
      by rewrite decide_False by done.
Qed.

(** C5: with the extends option, the interface name passed to the
    template is the concatenation, in the order of the words of the
    upper-camel-cased name of the designated-base field, of exactly
    those of these words that occur among the words of the
    upper-camel-cased type name; a word that occurs twice in the base
    name is kept twice, and when no word matches the name is empty. *)
Theorem extends_interface_name (walker : Walker.t) (fl : Flags.t)
    (spec : TypeSpec.t) (imports : gmap string string) (fs : FieldLoop.t) :
  Flags.hasExtendsOpts fl = true →
  foldlM (field_step ord walker) (FieldLoop.mk [] "" imports)
    (TypeSpec.Fields spec) = Ok fs →
  let base :=
    SplitIntoWords (ToUpperCamel (base_field_name (TypeSpec.Fields spec))) in
  let own := SplitIntoWords (ToUpperCamel (TypeSpec.Name spec)) in
  tmplParam.InterfaceName (spec_param fl spec fs)
    = String.concat "" (filter (λ w, w ∈ own) base)
  ∧ ((∀ w, w ∈ base → w ∉ own) →
     tmplParam.InterfaceName (spec_param fl spec fs) = "").
Proof.
  intros He Hloop base own.
  assert (tmplParam.InterfaceName (spec_param fl spec fs)
          = String.concat "" (filter (λ w, w ∈ own) base)) as Heq.
  { unfold spec_param, interfaceName_of. cbn [tmplParam.InterfaceName].
    rewrite He, match_filter, (fields_loop_superName _ _ _ _ Hloop).
    done. }
  split; [done|]. intros Hnone. rewrite Heq.
  replace (filter (λ w, w ∈ own) base) with (@nil string); [done|].
  symmetry. clear Heq. induction base as [|w base IH]; [done|].
  rewrite filter_cons, decide_False by (apply Hnone; by left).
  apply IH. intros w' Hw'. apply Hnone. by right.
Qed.

(* ------------------------------------------------------------------- *)
(* The fields of the constructor                                       *)
(* ------------------------------------------------------------------- *)

Lemma fields_loop_fieldInfos walker st fields st' :
  foldlM (field_step ord walker) st fields = Ok st' →
  FieldLoop.fieldInfos st' =
    FieldLoop.fieldInfos st
    ++ (field_info walker <$> filter (λ f, tagged f = true) fields).
Proof.
  revert st. induction fields as [|field fields IH]; intros st; simpl.
  - intros [= <-]. by rewrite app_nil_r.
  - destruct (field_step ord walker st field) as [st1|e] eqn:Hstep;
      [|done].
    cbn [mbind result_bind]. intros Hrest. rewrite (IH _ Hrest).
    rewrite filter_cons. destruct (tagged field) eqn:Ht.
    + destruct (field_step_tagged _ _ _ _ Ht Hstep) as (tp & Htp & -> & _).
      rewrite decide_True by done. rewrite fmap_cons, <- app_assoc.
      unfold field_info. by rewrite Htp.
    + rewrite field_step_untagged in Hstep by done. simplify_eq.
      by rewrite decide_False by done.
Qed.

(** C3 (as amended): when the loop over the fields of a marked type ends
    without error, the fields of the constructor are, in order, exactly
    the fields that carry at least one of the keys required and super (a
    field with both keys is included as well); a field with neither key,
    or with no tag at all, is skipped: its step changes nothing and
    returns no error. *)
Theorem synthesis_set_is_tagged_fields (walker : Walker.t)
    (st st' : FieldLoop.t) (fields : list Field.t) :
  foldlM (field_step ord walker) st fields = Ok st' →
  FieldLoop.fieldInfos st' =
    FieldLoop.fieldInfos st
    ++ (field_info walker <$> filter (λ f, tagged f = true) fields)
  ∧ (∀ field s, Field.Tag field = None →
       field_step ord walker s field = Ok s)
  ∧ (∀ field s, has_required_tag field = false →
       has_super_tag field = false →
       field_step ord walker s field = Ok s).
Proof.
  intros Hloop. split; [by apply fields_loop_fieldInfos|]. split.
  - intros field s Hnone. apply field_step_untagged.
    unfold tagged, has_required_tag, has_super_tag. by rewrite Hnone.
  - intros field s Hr Hs. apply field_step_untagged.
    unfold tagged. by rewrite Hr, Hs.
Qed.

(* ------------------------------------------------------------------- *)
(* A constant-value key with an empty value                            *)
(* ------------------------------------------------------------------- *)

(** C10: a field whose tag maps required to the empty string is
    included with an empty ConstValue and is handled as a parameter of
    the constructor: the step merges the imports of the type of the
    field into importPackages (the constant is not scanned); and in the
    constructor of a marked struct that has the field, the parameter
    list holds a parameter line for it, between those of the fields
    before and after it, and the body holds an assignment line for it
    whose value is that parameter (x, down-cast, when the field is the
    narrowed one). *)
Theorem empty_constant_is_parameter (walker : Walker.t) (st : FieldLoop.t)
    (field : Field.t) (value : string) (tp : TypePrinter.t) :
  Field.Tag field = Some value →
  Lookup (strings.Trim value "`") "required" = Some "" →
  Walker.ToTypePrinter walker (Field.Type_ field) = Ok tp →
  let fi :=
    FieldInfo.mk (TypePrinter.Print tp (Walker.PkgPath walker))
      (ParseFieldName field) "" in
  field_step ord walker st field =
    Ok (FieldLoop.mk
          (FieldLoop.fieldInfos st ++ [fi])
          (if has_super_tag field then ParseFieldName field
           else FieldLoop.superName st)
          (TypePrinter.ImportPkgMap tp (Walker.PkgPath walker)
             ∪ FieldLoop.importPackages st))
  ∧ (∀ p : tmplParam.t,
       tmpl_param_line p fi =
         nl +:+ tabs 9
         +:+ (if narrowed p fi then "x " +:+ tmplParam.InterfaceName p
              else ToLowerCamel (ParseFieldName field) +:+ " "
                   +:+ TypePrinter.Print tp (Walker.PkgPath walker))
         +:+ ","
       ∧ tmpl_assign_line p fi =
           nl +:+ tabs 10 +:+ ParseFieldName field +:+ ": "
           +:+ (if narrowed p fi
                then "x.(" +:+ "*" +:+ ParseFieldName field +:+ ")"
                else ToLowerCamel (ParseFieldName field))
           +:+ ",")
  ∧ ∀ (fl : Flags.t) (spec : TypeSpec.t) (imports : gmap string string)
      (f1 f2 : list Field.t) (fs : FieldLoop.t),
      TypeSpec.Fields spec = f1 ++ field :: f2 →
      foldlM (field_step ord walker) (FieldLoop.mk [] "" imports)
        (TypeSpec.Fields spec) = Ok fs →
      let p := spec_param fl spec fs in
      let before := field_info walker <$> filter (λ f, tagged f = true) f1 in
      let after := field_info walker <$> filter (λ f, tagged f = true) f2 in
      let params :=
        String.concat "" (tmpl_param_line p <$> before)
        +:+ tmpl_param_line p fi
        +:+ String.concat "" (tmpl_param_line p <$> after) in
      let assigns :=
        String.concat "" (tmpl_assign_line p <$> before)
        +:+ tmpl_assign_line p fi
        +:+ String.concat "" (tmpl_assign_line p <$> after) in
      tmplParam.Fields p = before ++ fi :: after
      ∧ tmpl_params p = params
      ∧ tmpl_assigns p = assigns
      ∧ constructor_tmpl p =
          nl +:+ "func " +:+ constructor_name p +:+ "("
          +:+ params
          +:+ nl +:+ tabs 6 +:+ ") " +:+ tmpl_return_type p +:+ " {"
          +:+ nl +:+ tabs 7 +:+ "return " +:+ tmpl_addr p
          +:+ tmplParam.StructName p +:+ "{"
          +:+ assigns
          +:+ nl +:+ tabs 7 +:+ "}"
          +:+ nl +:+ tabs 6 +:+ "}"
          +:+ nl +:+ tabs 5.
Proof.
  intros Htag Hreq Htp fi. split; [|split].
  - unfold field_step, has_super_tag. rewrite Htag, Hreq, Htp.
    cbn [mbind result_bind default negb bool_decide andb].
    rewrite (bool_decide_eq_true_2 (is_Some (Some ""))) by eauto.
    cbn [negb andb]. rewrite bool_decide_eq_true_2 by done.
    cbn [negb]. by rewrite merge_imports_union.
  - intros p. unfold tmpl_param_line, tmpl_assign_line, tmpl_value,
      tmpl_param, truth. subst fi. cbn [FieldInfo.ConstValue
      FieldInfo.Name FieldInfo.Type_].
    rewrite bool_decide_eq_true_2 by done. cbn [negb]. done.
  - intros fl spec imports f1 f2 fs Hfields Hloop p before after params
      assigns.
    assert (tagged field = true) as Ht.
    { unfold tagged, has_required_tag. rewrite Htag, Hreq.
      by rewrite (bool_decide_eq_true_2 (is_Some (Some ""))) by eauto. }
    assert (field_info walker field = fi) as Hfi.
    { unfold field_info, const_value. by rewrite Htp, Htag, Hreq. }
    assert (tmplParam.Fields p = before ++ fi :: after) as Hp.
    { subst p. unfold spec_param. cbn [tmplParam.Fields].
      rewrite (fields_loop_fieldInfos _ _ _ _ Hloop), Hfields.
      cbn [FieldLoop.fieldInfos app].
      rewrite filter_app, filter_cons, decide_True by done.
      by rewrite fmap_app, fmap_cons, Hfi. }
    assert (tmpl_params p = params) as Hparams.
    { unfold tmpl_params. rewrite Hp, fmap_app, fmap_cons.
      by rewrite string_concat_app, string_concat_cons. }
    assert (tmpl_assigns p = assigns) as Hassigns.
    { unfold tmpl_assigns. rewrite Hp, fmap_app, fmap_cons.
      by rewrite string_concat_app, string_concat_cons. }
    split; [done|]. split; [done|]. split; [done|].
    unfold constructor_tmpl. by rewrite Hparams, Hassigns.
Qed.

(* ------------------------------------------------------------------- *)
(* The import table                                                    *)
(* ------------------------------------------------------------------- *)

Lemma grows_by_nil (C : gmap string string → Prop) a :
  (∀ m, ¬ C m) → grows_by C a a.
Proof. intros HC. split; naive_solver. Qed.

Lemma grows_by_union m a : grows_by (λ m', m' = m) a (m ∪ a).
Proof.
  split.
  - intros n. rewrite dom_union_L, elem_of_union. naive_solver.
  - intros n path [Hm|[_ Ha]]%lookup_union_Some_raw; naive_solver.
Qed.

Lemma grows_by_trans (C1 C2 : gmap string string → Prop) a b c :
  grows_by C1 a b → grows_by C2 b c → grows_by (λ m, C1 m ∨ C2 m) a c.
Proof.
  intros [Hd1 Hl1] [Hd2 Hl2]. split.
  - intros n. rewrite Hd2, Hd1. naive_solver.
  - intros n path [Hb|(m & ? & ?)]%Hl2; [|naive_solver].
    apply Hl1 in Hb. naive_solver.
Qed.

Lemma grows_by_iff (C C' : gmap string string → Prop) a b :
  (∀ m, C m ↔ C' m) → grows_by C a b → grows_by C' a b.
Proof.
  intros HC [Hd Hl]. split.
  - intros n. rewrite Hd. naive_solver.
  - intros n path [?|(m & ? & ?)]%Hl; [by left|]. right. exists m.
    split; [by apply HC|done].
Qed.

(* A loop whose iterations add to the table adds what they all add. *)
Lemma foldlM_grows {A S : Type} (proj : S → gmap string string)
    (step : S → A → result S) (C : A → gmap string string → Prop)
    (l : list A) (st st' : S) :
  (∀ s x s', x ∈ l → step s x = Ok s' →
     grows_by (C x) (proj s) (proj s')) →
  foldlM step st l = Ok st' →
  grows_by (λ m, ∃ x, x ∈ l ∧ C x m) (proj st) (proj st').
Proof.
  revert st. induction l as [|x l IH]; intros st Hstep; simpl.
  - intros [= <-]. apply grows_by_nil. intros m (x & Hx & _).
    by apply not_elem_of_nil in Hx.
  - destruct (step st x) as [s1|e] eqn:Hx; [|done].
    cbn [mbind result_bind]. intros Hrest.
    eapply grows_by_iff;
      [|eapply grows_by_trans;
         [apply (Hstep st x s1); [by left|done]
         |apply (IH s1); [|done]]].
    + intros m. split.
      * intros [Hm|(y & Hy & Hm)]; [exists x|exists y];
          (split; [|done]); [by left|by right].
      * intros (y & [->|Hy]%elem_of_cons & Hm); [by left|].
        right. by exists y.
    + intros s y s' Hy. apply Hstep. by right.
Qed.

Lemma resolve_ident_grows walker field imports s imports' :
  resolve_ident ord walker field imports s = Ok imports' →
  grows_by (ident_contributes walker field s) imports imports'.
Proof.
  unfold resolve_ident, ident_contributes.
  destruct (ToTypePrinter _ _ s) as [p|e]; [|done].
  cbn [mbind result_bind]. intros [= <-]. rewrite merge_imports_union.
  eapply grows_by_iff; [|apply grows_by_union].
  intros m. split; [intros ->; by exists p|by intros (? & [= <-] & ->)].
Qed.

Lemma field_step_grows walker st field st' :
  field_step ord walker st field = Ok st' →
  grows_by (contributes walker field)
    (FieldLoop.importPackages st) (FieldLoop.importPackages st').
Proof.
  destruct (tagged field) eqn:Ht.
  2:{ rewrite field_step_untagged by done. intros [= <-].
      apply grows_by_nil. intros m [Hm _]. congruence. }
  unfold contributes. rewrite Ht. revert Ht.
  unfold tagged, has_required_tag, has_super_tag, const_value, field_step.
  destruct (Field.Tag field) as [value|]; [|done].
  intros Ht. rewrite <- negb_orb, Ht. cbn [negb].
  destruct (Walker.ToTypePrinter walker (Field.Type_ field)) as [tp|e];
    [|done].
  cbn [mbind result_bind].
  destruct (decide (default "" (Lookup (strings.Trim value "`") "required")
                    = "")) as [Hc|Hc].
  - rewrite bool_decide_eq_true_2 by done. cbn [negb]. intros [= <-].
    cbn [FieldLoop.importPackages]. rewrite merge_imports_union.
    eapply grows_by_iff; [|apply grows_by_union].
    intros m. split.
    + intros ->. split; [done|]. left. split; [done|]. by exists tp.
    + intros [_ [[_ (tp' & [= <-] & ->)]|[Hne _]]]; [done|].
      by destruct Hne.
  - rewrite bool_decide_eq_false_2 by done. cbn [negb].
    destruct (foldlM _ _ _) as [imports|e] eqn:Hloop; [|done].
    cbn [mbind result_bind]. intros [= <-].
    cbn [FieldLoop.importPackages]. rewrite FieldsFunc_idents in Hloop.
    eapply grows_by_iff;
      [|apply (foldlM_grows id (resolve_ident ord walker field)
                 (ident_contributes walker field) _ _ _
                 (λ s x s' _, resolve_ident_grows walker field s x s')
                 Hloop)].
    intros m. split.
    + intros (s & Hs & Hm). split; [done|]. right. split; [done|].
      by exists s.
    + intros [_ [[He _]|[_ (s & Hs & Hm)]]]; [done|]. by exists s.
Qed.

Lemma spec_step_grows walker st spec st' :
  spec_step ord walker st spec = Ok st' →
  grows_by
    (λ m, marked walker spec
          ∧ ∃ field, field ∈ TypeSpec.Fields spec
                     ∧ contributes walker field m)
    st.2 st'.2.
Proof.
  unfold spec_step, marked.
  destruct (bool_decide (length (collect_docs walker spec) = 0)) eqn:Hlen.
  { intros [= <-]. apply grows_by_nil. intros m [Hm _].
    apply bool_decide_eq_true_1 in Hlen.
    destruct (collect_docs walker spec); done. }
  destruct (Flags.hasMarker (scan_docs (collect_docs walker spec)));
    cbn [negb].
  2:{ intros [= <-]. apply grows_by_nil. by intros m [Hm _]. }
  destruct (foldlM _ _ _) as [fs|e] eqn:Hloop; [|done].
  cbn [mbind result_bind]. intros [= <-]. cbn [snd].
  eapply grows_by_iff;
    [|apply (foldlM_grows FieldLoop.importPackages
               (field_step ord walker) (contributes walker) _ _ _
               (λ s x s' _, field_step_grows walker s x s') Hloop)].
  intros m. naive_solver.
Qed.

Lemma group_body_grows walker body imports :
  group_body ord walker = Ok (body, imports) →
  grows_by (group_contributes walker) ∅ imports.
Proof.
  unfold group_body. intros Hloop.
  apply (foldlM_grows snd (spec_step ord walker)
           (λ spec m, marked walker spec
              ∧ ∃ field, field ∈ TypeSpec.Fields spec
                         ∧ contributes walker field m)
           _ _ _ (λ s x s' _, spec_step_grows walker s x s')) in Hloop.
  eapply grows_by_iff; [|apply Hloop].
  assert (∀ spec, marked walker spec ↔ has_marker_comment walker spec)
    as Hmarked.
  { intros spec. unfold marked, has_marker_comment.
    rewrite scan_docs_hasMarker, bool_decide_eq_true. done. }
  intros m. unfold group_contributes. split.
  - intros (spec & Hin & Hm%Hmarked & Hf). by exists spec.
  - intros (spec & Hin & Hm%Hmarked & Hf). by exists spec.
Qed.

(** C7 (as amended): when a compilation-unit group is processed without
    error, the aliases of its import table are exactly the aliases of the
    import maps of the printed types of the included fields without
    constant value and of the identifiers (the constant split at the
    runes that are neither letters nor one of . _ -) of the constant
    values, of its marked types; every path in the table is the path one
    of these maps gives its alias, so nothing else is in the table and
    the type of a field with a constant value adds nothing; and an entry
    of one of these maps is in the table whenever the maps agree on its
    alias (when two of them give one alias two paths, the table holds
    one of the two). *)
Theorem import_table_entries (walker : Walker.t) (body : string)
    (imports : gmap string string) :
  group_body ord walker = Ok (body, imports) →
  (∀ n, n ∈ dom imports ↔
        ∃ m, group_contributes walker m ∧ n ∈ dom m)
  ∧ (∀ n path, imports !! n = Some path →
       ∃ m, group_contributes walker m ∧ m !! n = Some path)
  ∧ (∀ n,
       (∀ m1 m2 p1 p2,
          group_contributes walker m1 → group_contributes walker m2 →
          m1 !! n = Some p1 → m2 !! n = Some p2 → p1 = p2) →
       ∀ m path, group_contributes walker m → m !! n = Some path →
         imports !! n = Some path).
Proof.
  intros [Hd Hl]%group_body_grows.
  assert (∀ n path, imports !! n = Some path →
            ∃ m, group_contributes walker m ∧ m !! n = Some path) as Hl'.
  { intros n path [Habs|?]%Hl; [|done]. by rewrite lookup_empty in Habs. }
  split; [|split; [done|]].
  - intros n. rewrite Hd, dom_empty_L. set_solver.
  - intros n Hagree m path Hm Hn.
    assert (n ∈ dom imports) as [path' Hp]%elem_of_dom.
    { apply Hd. right. exists m. split; [done|].
      apply elem_of_dom. by exists path. }
    destruct (Hl' _ _ Hp) as (m' & Hm' & Hn').
    by rewrite Hp, (Hagree m m' path path' Hm Hm' Hn Hn').
Qed.

(* ------------------------------------------------------------------- *)
(* Errors                                                              *)
(* ------------------------------------------------------------------- *)

Lemma resolve_ident_ok walker field imports s p :
  ToTypePrinter (AstFileToImportMap (Walker.ToFile walker field))
    (Walker.PkgPath walker) s = Ok p →
  resolve_ident ord walker field imports s
  = Ok (TypePrinter.ImportPkgMap p (Walker.PkgPath walker) ∪ imports).
Proof.
  intros Hp. unfold resolve_ident. rewrite Hp. cbn [mbind result_bind].
  by rewrite merge_imports_union.
Qed.

Lemma resolve_loop_total walker field imports ss :
  (∀ s, s ∈ ss →
     ∃ p, ToTypePrinter (AstFileToImportMap (Walker.ToFile walker field))
            (Walker.PkgPath walker) s = Ok p) →
  ∃ imports', foldlM (resolve_ident ord walker field) imports ss
              = Ok imports'.
Proof.
  revert imports. induction ss as [|s ss IH]; intros imports Hall;
    cbn [foldlM].
  - by eexists.
  - destruct (Hall s) as [p Hp]; [by left|].
    rewrite (resolve_ident_ok _ _ _ _ _ Hp). cbn [mbind result_bind].
    apply IH. intros s' Hs'. apply Hall. by right.
Qed.

Lemma field_fails_step walker st field e :
  field_fails walker field e → field_step ord walker st field = Err e.
Proof.
  intros [Ht Hcase]. revert Ht Hcase.
  unfold tagged, has_required_tag, has_super_tag, const_value, field_step.
  destruct (Field.Tag field) as [value|]; [|done].
  intros Ht. rewrite <- negb_orb, Ht. cbn [negb].
  intros [->|[[tp ->] (pre & s & post & Hss & Hpre & Hs)]]; [done|].
  cbn [mbind result_bind].
  destruct (decide (default "" (Lookup (strings.Trim value "`") "required")
                    = "")) as [Hc|Hc].
  { rewrite Hc in Hss. by destruct pre. }
  rewrite bool_decide_eq_false_2 by done. cbn [negb]. rewrite Hss.
  destruct (resolve_loop_total walker field (FieldLoop.importPackages st)
              pre Hpre) as [imports' Hloop].
  rewrite (foldlM_first_error _ _ pre s post imports' e Hloop); [done|].
  unfold resolve_ident. by rewrite Hs.
Qed.

Lemma first_failure_group walker e :
  first_failure ord walker e → group_body ord walker = Err e.
Proof.
  intros (sp1 & spec & sp2 & st & f1 & field & f2 & fst
          & Hspecs & Hsp1 & Hm & Hfields & Hf1 & Hfail).
  unfold group_body. rewrite Hspecs.
  apply (foldlM_first_error _ _ sp1 spec sp2 st e Hsp1).
  unfold spec_step. unfold marked in Hm.
  destruct (bool_decide (length (collect_docs walker spec) = 0)) eqn:Hlen.
  { apply bool_decide_eq_true_1 in Hlen.
    destruct (collect_docs walker spec); done. }
  rewrite Hm. cbn [negb]. rewrite Hfields.
  rewrite (foldlM_first_error _ _ f1 field f2 fst e Hf1); [done|].
  by apply field_fails_step.
Qed.

(* A group that fails adds nothing to what Run does with the writers. *)
Lemma run_walkers_failing_group opt newWriter ws1 walker ws2 deferred tr e :
  run_walkers ord opt newWriter ws1 deferred = (tr, Ok ()) →
  group_body ord walker = Err e →
  run_walkers ord opt newWriter (ws1 ++ walker :: ws2) deferred
  = (tr, Err e).
Proof.
  intros Hws1 Hfail. revert deferred tr Hws1.
  induction ws1 as [|w ws1 IH]; intros deferred tr; simpl.
  - intros [= <-]. by rewrite Hfail.
  - destruct (group_body ord w) as [[body imports]|e']; [|done].
    destruct (bool_decide (String.length body = 0)); [apply IH|].
    destruct (group_text opt w body imports) as [str|e']; [|done].
    destruct (Writer.Write _ str) as [n|e']; [|done].
    destruct (run_walkers ord opt newWriter ws1 _) as [tr1 r1] eqn:Hrest.
    intros [= <- ->]. by rewrite (IH _ _ Hrest).
Qed.

(** C8: when the first field Run cannot process in a group is a tagged
    field whose type does not print, or whose constant value holds an
    identifier that does not resolve, Run returns that error, and what
    it has done with the writers is what it did for the groups before:
    for the failing group no writer is requested and nothing is
    written. *)
Theorem failing_group_writes_nothing (targetDir : string)
    (newWriter : Package.t → Writer.t) (opts : list Option)
    (ws1 : list Walker.t) (walker : Walker.t) (ws2 : list Walker.t)
    (tr : list Event) (e : error) :
  let opt :=
    fold_left (λ o opt, opt o) opts (option_.mk None "go-genconstructor") in
  DirToAstWalker targetDir (option_.fileFilter opt)
    = Ok (ws1 ++ walker :: ws2) →
  run_walkers ord opt newWriter ws1 [] = (tr, Ok ()) →
  first_failure ord walker e →
  group_body ord walker = Err e
  ∧ Run ord targetDir newWriter opts = (tr, Err e).
Proof.
  intros opt Hdir Hws1 Hfail%first_failure_group. split; [done|].
  unfold Run. fold opt. rewrite Hdir.
  by apply run_walkers_failing_group.
Qed.

End Synthesis.

(* --------------------------------------------------------------------- *)
(* Determinism                                                           *)
(* --------------------------------------------------------------------- *)

Section Determinism.

Context `{Ext : Externals}.
Variables ord1 ord2 : MapOrder.

Lemma resolve_ident_order walker field imports s :
  resolve_ident ord1 walker field imports s
  = resolve_ident ord2 walker field imports s.
Proof.
  unfold resolve_ident. destruct (ToTypePrinter _ _ s) as [p|e]; [|done].
  cbn [mbind result_bind]. by rewrite (merge_imports_order ord1 ord2).
Qed.

Lemma field_step_order walker st field :
  field_step ord1 walker st field = field_step ord2 walker st field.
Proof.
  unfold field_step. destruct (Field.Tag field) as [value|]; [|done].
  destruct (negb _ && negb _); [done|].
  destruct (Walker.ToTypePrinter walker (Field.Type_ field)) as [tp|e];
    [|done].
  cbn [mbind result_bind].
  rewrite (foldlM_ext _ _ _ _ (resolve_ident_order walker field)).
  by rewrite (merge_imports_order ord1 ord2).
Qed.

Lemma spec_step_order walker st spec :
  spec_step ord1 walker st spec = spec_step ord2 walker st spec.
Proof.
  unfold spec_step.
  by rewrite (foldlM_ext _ _ _ _ (field_step_order walker)).
Qed.

Lemma group_body_order walker :
  group_body ord1 walker = group_body ord2 walker.
Proof. apply foldlM_ext, spec_step_order. Qed.

Lemma run_walkers_order opt newWriter walkers deferred :
  run_walkers ord1 opt newWriter walkers deferred
  = run_walkers ord2 opt newWriter walkers deferred.
Proof.
  revert deferred. induction walkers as [|w ws IH]; intros deferred;
    simpl; [done|].
  rewrite group_body_order.
  destruct (group_body ord2 w) as [[body imports]|e]; [|done].
  destruct (bool_decide _); [apply IH|].
  destruct (group_text opt w body imports) as [str|e]; [|done].
  destruct (Writer.Write _ str); [|done]. by rewrite IH.
Qed.

(** C9: Run is deterministic.  In the embedding Run is a function of its
    input and of the order in which each range over a map visits the
    entries, the one thing Go leaves open; two runs on the same
    directory, writers and options do the same writes with the same
    text and return the same result, whatever these orders are. *)
Theorem run_deterministic (targetDir : string)
    (newWriter : Package.t → Writer.t) (opts : list Option) :
  Run ord1 targetDir newWriter opts = Run ord2 targetDir newWriter opts.
Proof.
  unfold Run. destruct (DirToAstWalker _ _) as [walkers|e]; [|done].
  apply run_walkers_order.
Qed.

End Determinism.

(* --------------------------------------------------------------------- *)
(* The two examples of the specification                                 *)
(* --------------------------------------------------------------------- *)

Section EndToEnd.

Context `{Ext : Externals}.
Variable ord : MapOrder.

(** C1 (as amended): for the type Point with the marker and the option
    -p and the untagged fields X and Y, Run renders exactly one
    constructor, New followed by the upper-camel-cased type name, with
    an empty parameter list, the return type *Point and the body
    return &Point{}; no tagged field is needed and the import table is
    left as it was.  For a package that holds this type alone the body
    is that constructor, it is not empty, and Run formats the file,
    requests the writer of the package and writes the text to it. *)
Theorem untagged_point_gets_constructor (opt : option_.t)
    (newWriter : Package.t → Writer.t) (pkg : Package.t) (pkgPath : string)
    (toGenDecl : TypeSpec.t → GenDecl.t)
    (toTypePrinter : Expr → result TypePrinter.t)
    (toFile : Field.t → File.t) :
  let walker :=
    Walker.mk pkg pkgPath [Examples.Point] toGenDecl toTypePrinter toFile in
  let text :=
    nl +:+ "func New" +:+ ToUpperCamel "Point" +:+ "("
    +:+ nl +:+ tabs 6 +:+ ") *Point {"
    +:+ nl +:+ tabs 7 +:+ "return &Point{"
    +:+ nl +:+ tabs 7 +:+ "}"
    +:+ nl +:+ tabs 6 +:+ "}"
    +:+ nl +:+ tabs 5 in
  (∀ body imports,
     spec_step ord walker (body, imports) Examples.Point
     = Ok (body +:+ text, imports))
  ∧ group_body ord walker = Ok (text, ∅)
  ∧ run_walkers ord opt newWriter [walker] [] =
      match
        Source (out_tmpl (option_.generatorName opt) (Package.Name pkg)
                  (GoFmtImports ∅) text)
      with
      | Err e => ([], Err e)
      | Ok str =>
          (EvNewWriter pkg :: EvWrite pkg str
             :: (if Writer.IsCloser (newWriter pkg) then [EvClose pkg]
                 else []),
           match Writer.Write (newWriter pkg) str with
           | Ok _ => Ok ()
           | Err e => Err e
           end)
      end.
Proof.
  intros walker text.
  assert (group_body ord walker = Ok (text, ∅)) as Hbody by reflexivity.
  split; [reflexivity|]. split; [done|].
  cbn [run_walkers]. rewrite Hbody.
  rewrite bool_decide_eq_false_2 by (subst text; discriminate).
  unfold group_text. cbn [Walker.Pkg walker].
  destruct (Source _) as [str|e]; [|done].
  destruct (Writer.Write (newWriter pkg) str) as [n|e];
    by destruct (Writer.IsCloser (newWriter pkg)).
Qed.

(** C2 (as amended): for the type AdminUser with the marker and the
    option -e, the field Base *UserBase tagged super and the field Role
    string tagged required with the constant admin (as a Go string
    literal), the words of the field name Base and those of AdminUser
    have nothing in common, so the interface name is empty: the
    constructor NewAdminUser takes the one parameter base *UserBase,
    has the empty interface name as return type, and returns
    &AdminUser{..} with Base assigned from base, without down-cast, and
    Role assigned the constant. *)
Theorem admin_user_constructor (walker : Walker.t) (body : string)
    (imports : gmap string string) (tpBase tpRole pAdmin : TypePrinter.t) :
  Lookup (strings.Trim Examples.tag_super "`") "super" = Some "" →
  Lookup (strings.Trim Examples.tag_super "`") "required" = None →
  Lookup (strings.Trim Examples.tag_admin "`") "super" = None →
  Lookup (strings.Trim Examples.tag_admin "`") "required"
    = Some (Reference.dq +:+ "admin" +:+ Reference.dq) →
  ParseFieldName Examples.field_Base = "Base" →
  ParseFieldName Examples.field_Role = "Role" →
  Walker.ToTypePrinter walker "*UserBase" = Ok tpBase →
  TypePrinter.Print tpBase (Walker.PkgPath walker) = "*UserBase" →
  Walker.ToTypePrinter walker "string" = Ok tpRole →
  ToTypePrinter (AstFileToImportMap (Walker.ToFile walker Examples.field_Role))
    (Walker.PkgPath walker) "admin" = Ok pAdmin →
  ToUpperCamel "AdminUser" = "AdminUser" →
  ToUpperCamel "Base" = "Base" →
  ToLowerCamel "Base" = "base" →
  SplitIntoWords "AdminUser" = ["Admin"; "User"] →
  SplitIntoWords "Base" = ["Base"] →
  spec_step ord walker (body, imports) Examples.AdminUser =
    Ok (body
        +:+ nl +:+ "func NewAdminUser("
        +:+ nl +:+ tabs 9 +:+ "base *UserBase,"
        +:+ nl +:+ tabs 6 +:+ ")  {"
        +:+ nl +:+ tabs 7 +:+ "return &AdminUser{"
        +:+ nl +:+ tabs 10 +:+ "Base: base,"
        +:+ nl +:+ tabs 10 +:+ "Role: " +:+ Reference.dq +:+ "admin" +:+ Reference.dq +:+ ","
        +:+ nl +:+ tabs 7 +:+ "}"
        +:+ nl +:+ tabs 6 +:+ "}"
        +:+ nl +:+ tabs 5,
        TypePrinter.ImportPkgMap pAdmin (Walker.PkgPath walker)
        ∪ (TypePrinter.ImportPkgMap tpBase (Walker.PkgPath walker)
           ∪ imports)).
Proof.
  intros HsS HsR HaS HaR HnB HnR HtB HpB HtR HpA Hau Hb Hlb Hwa Hwb.
  unfold spec_step.
  change (collect_docs walker Examples.AdminUser)
    with (Comment.mk "//genconstructor -e"
          :: default [] (GenDecl.Doc (Walker.TypeSpecToGenDecl walker
                                        Examples.AdminUser))).
  cbn [length bool_decide decide_rel]. rewrite bool_decide_eq_false_2 by done.
  change (scan_docs (Comment.mk "//genconstructor -e" :: _))
    with (Flags.mk true false false true).
  cbn [Flags.hasMarker negb TypeSpec.Fields Examples.AdminUser foldlM
       fst snd].
  (* the field Base *)
  assert (field_step ord walker (FieldLoop.mk [] "" imports) Examples.field_Base
          = Ok (FieldLoop.mk [FieldInfo.mk "*UserBase" "Base" ""] "Base"
                  (TypePrinter.ImportPkgMap tpBase (Walker.PkgPath walker)
                   ∪ imports))) as ->.
  { unfold field_step. cbn [Field.Tag Examples.field_Base Field.Type_].
    rewrite HsS, HsR, HnB, HtB. cbn [mbind result_bind default id].
    rewrite HpB, merge_imports_union.
    rewrite (bool_decide_eq_false_2 (is_Some None)) by (by intros [??]).
    rewrite (bool_decide_eq_true_2 (is_Some (Some ""))) by eauto.
    done. }
  cbn [mbind result_bind].
  (* the field Role *)
  assert (strings.FieldsFunc (Reference.dq +:+ "admin" +:+ Reference.dq) const_sep = ["admin"])
    as Hss by done.
  assert (∀ st, field_step ord walker st Examples.field_Role
          = Ok (FieldLoop.mk
                  (FieldLoop.fieldInfos st
                   ++ [FieldInfo.mk
                         (TypePrinter.Print tpRole (Walker.PkgPath walker))
                         "Role" (Reference.dq +:+ "admin" +:+ Reference.dq)])
                  (FieldLoop.superName st)
                  (TypePrinter.ImportPkgMap pAdmin (Walker.PkgPath walker)
                   ∪ FieldLoop.importPackages st))) as ->.
  { intros st. unfold field_step. cbn [Field.Tag Examples.field_Role Field.Type_].
    rewrite HaS, HaR, HnR, HtR. cbn [mbind result_bind default id].
    rewrite (bool_decide_eq_false_2 (is_Some None)) by (by intros [??]).
    rewrite (bool_decide_eq_true_2 (is_Some (Some _))) by eauto.
    cbn [negb andb]. rewrite bool_decide_eq_false_2 by done.
    cbn [negb]. rewrite Hss. cbn [foldlM].
    rewrite (resolve_ident_ok _ _ _ _ _ _ HpA). done. }
  cbn [mbind result_bind FieldLoop.fieldInfos FieldLoop.superName
       FieldLoop.importPackages app fst snd].
  f_equal. f_equal. f_equal.
  unfold spec_param.
  cbn [FieldLoop.superName FieldLoop.fieldInfos TypeSpec.Name
       Examples.AdminUser Flags.hasPointerOpts Flags.hasSuperOpts
       Flags.hasExtendsOpts].
  assert (interfaceName_of (Flags.mk true false false true)
            "Base" "AdminUser" = "") as ->.
  { unfold interfaceName_of. cbn [Flags.hasExtendsOpts Flags.hasSuperOpts].
    by rewrite Hau, Hb, Hwa, Hwb. }
  unfold constructor_tmpl, constructor_name, tmpl_params, tmpl_assigns.
  cbn [tmplParam.StructName tmplParam.InterfaceName tmplParam.Fields
       tmplParam.Pointer tmplParam.Super tmplParam.Extends
       fmap list_fmap].
  unfold tmpl_param_line, tmpl_assign_line, tmpl_value, tmpl_param,
    narrowed, tmpl_return_type, tmpl_addr.
  cbn [tmplParam.StructName tmplParam.InterfaceName tmplParam.Fields
       tmplParam.Pointer tmplParam.Super tmplParam.Extends
       FieldInfo.Name FieldInfo.ConstValue FieldInfo.Type_].
  rewrite Hau, Hb, Hlb. by vm_compute.
Qed.

End EndToEnd.

(* ===================================================================== *)
(* The theorems on the examples                                          *)
(* ===================================================================== *)

(** C4, counterexample: the type Shape has the option -s and not -p, yet
    its literal is address-taken and its return type is the interface
    name, not the struct type. *)
Lemma super_option_takes_address :
  ¬ (∀ (docs : list Comment.t) (spec : TypeSpec.t) (fs : FieldLoop.t),
       let p := spec_param (Ext := Examples.ext) (scan_docs docs) spec fs in
       tmplParam.Pointer p = false →
       tmpl_return_type p = tmplParam.StructName p ∧ tmpl_addr p = "").
Proof.
  intros H.
  destruct (H [Comment.mk "//genconstructor -s"] Examples.Shape
              (FieldLoop.mk [] "" ∅) eq_refl) as [_ Haddr].
  vm_compute in Haddr. discriminate Haddr.
Qed.

(** C3, counterexample: a field whose tag has both keys does not carry
    exactly one of them, and it is included. *)
Lemma field_with_both_keys_is_included :
  ¬ (∀ (walker : Walker.t) (st st' : FieldLoop.t) (field : Field.t),
       field_step (Ext := Examples.ext) Reference.ascending walker st field
       = Ok st' →
       (FieldLoop.fieldInfos st' ≠ FieldLoop.fieldInfos st
        ↔ xorb (has_required_tag (Ext := Examples.ext) field)
               (has_super_tag (Ext := Examples.ext) field) = true)).
Proof.
  intros H.
  pose (field := Field.mk ["Base"] "*UserBase" (Some Examples.tag_both)).
  pose (st' := FieldLoop.mk [FieldInfo.mk "*UserBase" "Base" "1"] "Base" ∅).
  destruct (H Examples.users (FieldLoop.mk [] "" ∅) st' field) as [Hincl _].
  { by vm_compute. }
  assert (false = true) as Hft; [|discriminate Hft].
  apply Hincl. discriminate.
Qed.

(** C7, counterexample: the structs ClashX and ClashY of one package
    are declared in two files that import two packages under the one
    alias a, and each has a field of a type of its package a.  Both
    entries are contributed, and the table holds the second only: the
    entry of the first namespace is not in it. *)
Lemma alias_clash_drops_an_entry :
  ¬ (∀ (walker : Walker.t) (body : string) (imports : gmap string string),
       group_body (Ext := Examples.ext) Reference.ascending walker
       = Ok (body, imports) →
       ∀ m n path,
         group_contributes (Ext := Examples.ext) walker m →
         m !! n = Some path → imports !! n = Some path).
Proof.
  intros H.
  destruct (group_body (Ext := Examples.ext) Reference.ascending
              MoreExamples.clash) as [[body imports]|e] eqn:Hbody;
    [|by vm_compute in Hbody].
  pose proof (H MoreExamples.clash body imports Hbody
                {["a" := "example.com/x/a"]} "a" "example.com/x/a") as Hx.
  assert (imports !! "a" = Some "example.com/y/a") as Hy.
  { vm_compute in Hbody. injection Hbody as _ <-. by vm_compute. }
  assert (group_contributes (Ext := Examples.ext) MoreExamples.clash
            {["a" := "example.com/x/a"]}) as Hm.
  { exists MoreExamples.ClashX. split; [by left|].
    split; [left; by vm_compute|].
    exists MoreExamples.field_T. split; [by left|].
    split; [by vm_compute|]. left. split; [by vm_compute|].
    eexists. split; [reflexivity|]. by vm_compute. }
  assert (({["a" := "example.com/x/a"]} : gmap string string) !! "a"
          = Some "example.com/x/a") as Hn by (by vm_compute).
  specialize (Hx Hm Hn). rewrite Hy in Hx. discriminate Hx.
Qed.

(** C1, counterexample: Run on the package of Point writes a file, and
    the text holds the constructor NewPoint. *)
Lemma point_constructor_is_written :
  ∃ text : string,
    Run (Ext := Examples.ext) Reference.ascending "geo" Reference.buffer []
    = ([EvNewWriter (Package.mk "geo"); EvWrite (Package.mk "geo") text],
       Ok ())
    ∧ strings.Contains text "func NewPoint(" = true.
Proof. eexists. split; [by vm_compute|by vm_compute]. Qed.

(** C2, counterexample: for AdminUser the interface name is empty, not
    User; the text Run writes has the parameter base *UserBase and the
    assignment Base: base, and holds neither a parameter x User nor a
    down-cast. *)
Lemma admin_user_has_no_interface_parameter :
  interfaceName_of (Ext := Examples.ext) (Flags.mk true false false true)
    "Base" "AdminUser" = ""
  ∧ ∃ text : string,
      Run (Ext := Examples.ext) Reference.ascending "users" Reference.buffer []
      = ([EvNewWriter (Package.mk "users");
          EvWrite (Package.mk "users") text], Ok ())
      ∧ strings.Contains text "func NewAdminUser(" = true
      ∧ strings.Contains text "base *UserBase," = true
      ∧ strings.Contains text "Base: base," = true
      ∧ strings.Contains text "x User" = false
      ∧ strings.Contains text "x.(" = false.
Proof.
  split; [by vm_compute|]. eexists.
  split; [by vm_compute|]. repeat split; by vm_compute.
Qed.

(* With the base embedded the field is named UserBase and the interface
   name is User; the parameter is still not narrowed, since UserBase is
   not User. *)
Lemma admin_user_embedded :
  group_body (Ext := Examples.ext) Reference.ascending
    (Reference.walker_of "users" "example.com/users"
       [Examples.AdminUserEmbedded] Examples.imports_none)
  = Ok (nl +:+ "func NewAdminUser("
        +:+ nl +:+ tabs 9 +:+ "userBase *UserBase,"
        +:+ nl +:+ tabs 6 +:+ ") User {"
        +:+ nl +:+ tabs 7 +:+ "return &AdminUser{"
        +:+ nl +:+ tabs 10 +:+ "UserBase: userBase,"
        +:+ nl +:+ tabs 10 +:+ "Role: " +:+ Reference.dq +:+ "admin"
        +:+ Reference.dq +:+ ","
        +:+ nl +:+ tabs 7 +:+ "}"
        +:+ nl +:+ tabs 6 +:+ "}"
        +:+ nl +:+ tabs 5, ∅).
Proof. by vm_compute. Qed.

(* C2 on the reference packages. *)
Lemma admin_user_constructor_witness :
  spec_step (Ext := Examples.ext) Reference.ascending Examples.users
    ("", ∅) Examples.AdminUser
  = Ok ("" +:+ nl +:+ "func NewAdminUser("
        +:+ nl +:+ tabs 9 +:+ "base *UserBase,"
        +:+ nl +:+ tabs 6 +:+ ")  {"
        +:+ nl +:+ tabs 7 +:+ "return &AdminUser{"
        +:+ nl +:+ tabs 10 +:+ "Base: base,"
        +:+ nl +:+ tabs 10 +:+ "Role: " +:+ Reference.dq +:+ "admin"
        +:+ Reference.dq +:+ ","
        +:+ nl +:+ tabs 7 +:+ "}"
        +:+ nl +:+ tabs 6 +:+ "}"
        +:+ nl +:+ tabs 5,
        TypePrinter.ImportPkgMap
          (Examples.printer_of (Reference.ToTypePrinter ∅ "example.com/users"
                                  "admin")) "example.com/users"
        ∪ (TypePrinter.ImportPkgMap
             (Examples.printer_of
                (Walker.ToTypePrinter Examples.users "*UserBase"))
             "example.com/users"
           ∪ ∅)).
Proof.
  apply (admin_user_constructor (Ext := Examples.ext) Reference.ascending
           Examples.users "" ∅
           (Examples.printer_of
              (Walker.ToTypePrinter Examples.users "*UserBase"))
           (Examples.printer_of
              (Walker.ToTypePrinter Examples.users "string"))
           (Examples.printer_of
              (Reference.ToTypePrinter ∅ "example.com/users" "admin")));
    reflexivity.
Defined.

(* C5 on AdminUser with its base embedded: the words User, Base of the
   field and Admin, User of the type give User. *)
Lemma extends_interface_name_witness :
  let fl := Flags.mk true false false true in
  let fs :=
    FieldLoop.mk
      [FieldInfo.mk "*UserBase" "UserBase" "";
       FieldInfo.mk "string" "Role"
         (Reference.dq +:+ "admin" +:+ Reference.dq)]
      "UserBase" ∅ in
  Flags.hasExtendsOpts fl = true
  ∧ foldlM (field_step (Ext := Examples.ext) Reference.ascending
              Examples.users)
      (FieldLoop.mk [] "" ∅) (TypeSpec.Fields Examples.AdminUserEmbedded)
    = Ok fs
  ∧ tmplParam.InterfaceName
      (spec_param (Ext := Examples.ext) fl Examples.AdminUserEmbedded fs)
    = String.concat ""
        (filter (λ w, w ∈ ["Admin"; "User"]) ["User"; "Base"]).
Proof.
  intros fl fs. split; [reflexivity|]. split; [vm_compute; reflexivity|].
  apply (extends_interface_name (Ext := Examples.ext) Reference.ascending
           Examples.users fl Examples.AdminUserEmbedded ∅ fs);
    [reflexivity|vm_compute; reflexivity].
Defined.

(* C3 on Timer: Clock and Step are tagged, Comment is not. *)
Lemma synthesis_set_is_tagged_fields_witness :
  ∃ st' : FieldLoop.t,
    foldlM (field_step (Ext := Examples.ext) Reference.ascending
              Examples.timers)
      (FieldLoop.mk [] "" ∅) (TypeSpec.Fields Examples.Timer) = Ok st'
    ∧ FieldLoop.fieldInfos st' =
        [] ++ (field_info (Ext := Examples.ext) Examples.timers
                 <$> filter (λ f, tagged (Ext := Examples.ext) f = true)
                       (TypeSpec.Fields Examples.Timer)).
Proof.
  eexists. split; [vm_compute; reflexivity|].
  apply (synthesis_set_is_tagged_fields (Ext := Examples.ext)
           Reference.ascending Examples.timers (FieldLoop.mk [] "" ∅)).
  vm_compute; reflexivity.
Defined.

(* C10 on the field Clock of Timer, whose constant is empty: it is the
   one parameter of NewTimer. *)
Lemma empty_constant_is_parameter_witness :
  let tp :=
    Examples.printer_of (Walker.ToTypePrinter Examples.timers "clock.Clock") in
  let fl := Flags.mk true false false false in
  let fs :=
    FieldLoop.mk
      [FieldInfo.mk "clock.Clock" "Clock" "";
       FieldInfo.mk "sync.Duration" "Step" "time.Second"] ""
      {["clock" := "example.com/clock"; "time" := "time"]} in
  Field.Tag Examples.field_Clock = Some Examples.tag_required_empty
  ∧ Lookup (Externals := Examples.ext)
      (strings.Trim Examples.tag_required_empty "`") "required" = Some ""
  ∧ Walker.ToTypePrinter Examples.timers (Field.Type_ Examples.field_Clock)
    = Ok tp
  ∧ field_step (Ext := Examples.ext) Reference.ascending Examples.timers
      (FieldLoop.mk [] "" ∅) Examples.field_Clock
    = Ok (FieldLoop.mk
            [FieldInfo.mk "clock.Clock" "Clock" ""] ""
            ({["clock" := "example.com/clock"]} ∪ ∅))
  ∧ foldlM (field_step (Ext := Examples.ext) Reference.ascending
              Examples.timers)
      (FieldLoop.mk [] "" ∅) (TypeSpec.Fields Examples.Timer) = Ok fs
  ∧ tmpl_params (Ext := Examples.ext)
      (spec_param (Ext := Examples.ext) fl Examples.Timer fs)
    = nl +:+ tabs 9 +:+ "clock clock.Clock,"
  ∧ tmpl_assigns (Ext := Examples.ext)
      (spec_param (Ext := Examples.ext) fl Examples.Timer fs)
    = nl +:+ tabs 10 +:+ "Clock: clock,"
      +:+ nl +:+ tabs 10 +:+ "Step: time.Second,".
Proof.
  intros tp fl fs.
  assert (foldlM (field_step (Ext := Examples.ext) Reference.ascending
                    Examples.timers)
            (FieldLoop.mk [] "" ∅) (TypeSpec.Fields Examples.Timer) = Ok fs)
    as Hloop by (vm_compute; reflexivity).
  destruct (empty_constant_is_parameter (Ext := Examples.ext)
              Reference.ascending Examples.timers (FieldLoop.mk [] "" ∅)
              Examples.field_Clock Examples.tag_required_empty tp
              eq_refl eq_refl eq_refl) as (Hstep & _ & Hctor).
  destruct (Hctor fl Examples.Timer ∅ []
              [Examples.field_Step; Field.mk ["Comment"] "string" None] fs
              eq_refl Hloop) as (_ & Hparams & Hassigns & _).
  split; [reflexivity|]. split; [reflexivity|]. split; [reflexivity|].
  split; [exact Hstep|]. split; [exact Hloop|].
  split; [rewrite Hparams|rewrite Hassigns]; vm_compute; reflexivity.
Defined.

(* C7 on Timer: clock comes from the type of Clock, time from the
   constant of Step; sync, the package of the type of Step, is not in
   the table. *)
Lemma import_table_entries_witness :
  ∃ (body : string) (imports : gmap string string),
    group_body (Ext := Examples.ext) Reference.ascending Examples.timers
    = Ok (body, imports)
    ∧ imports = {["clock" := "example.com/clock"; "time" := "time"]}
    ∧ (∀ n, n ∈ dom imports ↔
            ∃ m, group_contributes (Ext := Examples.ext) Examples.timers m
                 ∧ n ∈ dom m).
Proof.
  eexists. eexists. split; [vm_compute; reflexivity|].
  split; [by vm_compute|].
  eapply (import_table_entries (Ext := Examples.ext) Reference.ascending
            Examples.timers).
  vm_compute; reflexivity.
Defined.

(* C8 on the directory all: geo is written, broken fails on the constant
   missing.Value, users is not reached. *)
Lemma failing_group_writes_nothing_witness :
  ∃ text : string,
    Run (Ext := Examples.ext) Reference.ascending "all" Reference.file []
    = ([EvNewWriter (Package.mk "geo"); EvWrite (Package.mk "geo") text;
        EvClose (Package.mk "geo")],
       Err "unknown package missing").
Proof.
  eexists.
  eapply (failing_group_writes_nothing (Ext := Examples.ext)
            Reference.ascending "all" Reference.file []
            [Examples.geo] Examples.broken [Examples.users]).
  - reflexivity.
  - vm_compute; reflexivity.
  - exists [], Examples.Broken, [], ("", ∅), [],
      (Field.mk ["V"] "int" (Some Examples.tag_missing)), [],
      (FieldLoop.mk [] "" ∅).
    split; [reflexivity|]. split; [reflexivity|]. split; [reflexivity|].
    split; [reflexivity|]. split; [reflexivity|].
    split; [reflexivity|]. right. split.
    + eexists. vm_compute; reflexivity.
    + exists [], "missing.Value", []. split; [reflexivity|].
      split; [|reflexivity].
      intros s' Hs'. by apply not_elem_of_nil in Hs'.
Defined.

(* ===================================================================== *)
(* Further properties of the code                                        *)
(* ===================================================================== *)

(* --------------------------------------------------------------------- *)
(* match                                                                 *)
(* --------------------------------------------------------------------- *)

(** X1: match returns the elements of its first argument that occur in
    its second, in their order and each as often as it occurs in the
    first argument: the result is a sublist of the first argument, an
    element is in it exactly when it is in both arguments, and an
    element of the second argument occurs in the result as many times
    as in the first. *)
Theorem match_sublist_of_both (a b : list string) :
  match_ a b `sublist_of` a
  ∧ (∀ x, x ∈ match_ a b ↔ x ∈ a ∧ x ∈ b)
  ∧ (length (match_ a b) ≤ length a)%nat
  ∧ (∀ x, x ∈ b →
       length (filter (λ y, y = x) (match_ a b))
       = length (filter (λ y, y = x) a))
  ∧ match_ a b = filter (λ x, x ∈ b) a.
Proof.
  rewrite match_filter. split; [apply sublist_filter|]. split; [|split].
  - intros x. rewrite list_elem_of_filter. naive_solver.
  - apply length_filter.
  - split; [|done]. intros x Hx. f_equal.
    induction a as [|y a IH]; [done|]. rewrite !filter_cons.
    destruct (decide (y = x)) as [->|Hne].
    + rewrite decide_True by done. rewrite filter_cons, decide_True by done.
      by rewrite IH.
    + destruct (decide (y ∈ b)); [|done].
      by rewrite filter_cons, decide_False by done.
Qed.

(** X2: the edge cases of match: an empty argument on either side gives
    the empty list, a list matched with itself is returned whole, and
    matching the result again with the same second argument changes
    nothing. *)
Theorem match_edge_cases (a b : list string) :
  match_ [] b = []
  ∧ match_ a [] = []
  ∧ match_ a a = a
  ∧ match_ (match_ a b) b = match_ a b.
Proof.
  rewrite !match_filter. split; [done|]. split; [|split].
  - induction a as [|x a IH]; [done|].
    rewrite filter_cons, decide_False by apply not_elem_of_nil. done.
  - assert (∀ l : list string, Forall (λ x, x ∈ a) l
                → filter (λ x, x ∈ a) l = l) as Hall.
    { induction 1 as [|x l Hx _ IH]; [done|].
      by rewrite filter_cons, decide_True, IH by done. }
    apply Hall, Forall_forall. done.
  - assert (∀ l : list string,
              filter (λ x, x ∈ b) (filter (λ x, x ∈ b) l)
              = filter (λ x, x ∈ b) l) as Hidem.
    { induction l as [|x l IH]; [done|]. rewrite filter_cons.
      destruct (decide (x ∈ b)) as [Hx|Hx]; [|done].
      by rewrite filter_cons, decide_True, IH by done. }
    apply Hidem.
Qed.

(** X3: match reads its second argument as a set and its first as a
    sequence: two second arguments with the same elements give the same
    result, whatever their order and repetitions, and the result on a
    concatenation is the concatenation of the results. *)
Theorem match_second_argument_is_a_set (a1 a2 b b' : list string) :
  (∀ x, x ∈ b ↔ x ∈ b') →
  match_ a1 b = match_ a1 b'
  ∧ match_ (a1 ++ a2) b = match_ a1 b ++ match_ a2 b.
Proof.
  intros Hsame. rewrite !match_filter. split.
  - by apply list_filter_iff.
  - apply filter_app.
Qed.

Lemma match_second_argument_is_a_set_witness :
  match_ ["User"; "Base"] ["Admin"; "User"]
  = match_ ["User"; "Base"] ["User"; "Admin"; "User"]
  ∧ match_ (["User"; "Base"] ++ ["Admin"]) ["Admin"; "User"]
    = match_ ["User"; "Base"] ["Admin"; "User"]
      ++ match_ ["Admin"] ["Admin"; "User"].
Proof.
  apply (match_second_argument_is_a_set ["User"; "Base"] ["Admin"]
           ["Admin"; "User"] ["User"; "Admin"; "User"]).
  intros x. rewrite !elem_of_cons. tauto.
Defined.

(* --------------------------------------------------------------------- *)
(* Options of Run                                                        *)
(* --------------------------------------------------------------------- *)

Lemma fold_options (calls : list OptionCall) (o : option_.t) :
  let opt := fold_left (λ o opt, opt o) (to_Option <$> calls) o in
  option_.generatorName opt
  = default (option_.generatorName o) (last (omap call_name calls))
  ∧ option_.fileFilter opt
    = match last (omap call_filter calls) with
      | Some f => Some f
      | None => option_.fileFilter o
      end.
Proof.
  revert o. induction calls as [|c calls IH]; intros o; [done|].
  cbn [fmap list_fmap fold_left]. destruct (IH (to_Option c o)) as [-> ->].
  destruct c as [f|g]; cbn [omap list_omap call_name call_filter to_Option
    WithFileFilter WithGeneratorName option_.generatorName
    option_.fileFilter].
  - split; [done|]. rewrite last_cons.
    by destruct (last (omap call_filter calls)).
  - split; [|done]. rewrite last_cons.
    by destruct (last (omap call_name calls)).
Qed.

Section Options.

Context `{Ext : Externals}.
Variable ord : MapOrder.

(** X4: Run applies its options in order to the default option (no file
    filter, generator name go-genconstructor), so for options built with
    WithFileFilter and WithGeneratorName the last call of each kind wins
    and the two kinds do not disturb each other; without a call the
    default stays.  The file filter so obtained is the one Run hands to
    the walker of the directory, and the generator name so obtained is
    the one it puts in the header of every file. *)
Theorem options_last_call_wins (targetDir : string)
    (newWriter : Package.t → Writer.t) (calls : list OptionCall) :
  let fileFilter := last (omap call_filter calls) in
  let generatorName :=
    default "go-genconstructor" (last (omap call_name calls)) in
  Run ord targetDir newWriter (to_Option <$> calls) =
    match DirToAstWalker targetDir fileFilter with
    | Err e => ([], Err e)
    | Ok walkers =>
        run_walkers ord (option_.mk fileFilter generatorName) newWriter
          walkers []
    end.
Proof.
  intros fileFilter generatorName. unfold Run.
  destruct (fold_options calls (option_.mk None "go-genconstructor"))
    as [Hn Hf].
  destruct (fold_left _ _ _) as [ff gn].
  cbn [option_.generatorName option_.fileFilter] in *.
  assert (ff = fileFilter) as ->.
  { rewrite Hf. subst fileFilter. by destruct (last (omap call_filter calls)). }
  by rewrite Hn.
Qed.

End Options.

(* --------------------------------------------------------------------- *)
(* The doc comments of a struct                                          *)
(* --------------------------------------------------------------------- *)

Lemma scan_docs_app (l1 l2 : list Comment.t) :
  scan_docs (l1 ++ l2)
  = if decide (Exists is_marker l1) then scan_docs l1 else scan_docs l2.
Proof.
  induction l1 as [|comment l1 IH].
  - rewrite decide_False by (by intros ?%Exists_nil). done.
  - rewrite <- app_comm_cons. cbn [scan_docs].
    destruct (decide (is_marker comment)) as [Hm|Hm].
    + rewrite decide_True by (by left).
      unfold is_marker in Hm. by rewrite Hm.
    + pose proof Hm as Hm'. unfold is_marker in Hm'.
      apply not_true_is_false in Hm'. rewrite Hm', IH.
      destruct (decide (Exists is_marker l1)) as [Hex|Hex].
      * by rewrite decide_True by (by right).
      * rewrite decide_False; [done|].
        intros [?|?]%Exists_cons; done.
Qed.

(** X5: the doc comments of the struct are read before those of its
    enclosing declaration: when a comment of the struct carries the
    marker, the flags of the struct are those of its own comments and
    the comments of the declaration are not read; otherwise (also when
    the struct has no doc comment) they are those of the comments of the
    declaration. *)
Theorem first_doc_list_has_precedence (walker : Walker.t)
    (spec : TypeSpec.t) :
  let own := default [] (TypeSpec.Doc spec) in
  let decl :=
    default [] (GenDecl.Doc (Walker.TypeSpecToGenDecl walker spec)) in
  scan_docs (collect_docs walker spec)
  = if decide (Exists is_marker own) then scan_docs own else scan_docs decl.
Proof. intros own decl. apply scan_docs_app. Qed.

(* --------------------------------------------------------------------- *)
(* Copying a map into importPackages                                     *)
(* --------------------------------------------------------------------- *)

(** X6: after the loop that copies src into importPackages, an alias of
    src has the path src gives it, overwriting an earlier one, and every
    other alias keeps its path; copying the same map again, or an empty
    map, changes nothing. *)
Theorem merge_imports_overwrites (ord : MapOrder)
    (src acc : gmap string string) :
  (∀ n, merge_imports ord src acc !! n
        = match src !! n with
          | Some path => Some path
          | None => acc !! n
          end)
  ∧ merge_imports ord src (merge_imports ord src acc)
    = merge_imports ord src acc
  ∧ merge_imports ord ∅ acc = acc.
Proof.
  rewrite !merge_imports_union. split; [|split].
  - intros n. rewrite lookup_union. by destruct (src !! n), (acc !! n).
  - by rewrite (assoc_L (∪)), (idemp_L (∪)).
  - by rewrite (left_id_L ∅ (∪)).
Qed.

(* --------------------------------------------------------------------- *)
(* Structs without marker, interface names, parameters                   *)
(* --------------------------------------------------------------------- *)

Section MoreSynthesis.

Context `{Ext : Externals}.
Variable ord : MapOrder.

Lemma spec_step_unmarked walker st spec :
  Flags.hasMarker (scan_docs (collect_docs walker spec)) = false →
  spec_step ord walker st spec = Ok st.
Proof.
  intros Hm. unfold spec_step. rewrite Hm.
  by destruct (bool_decide (length (collect_docs walker spec) = 0)).
Qed.

(** X7: a struct none of whose doc comments (its own and those of its
    enclosing declaration) starts, after trimming, with the marker is
    skipped: the body and the import table are left as they are and no
    error is returned, whatever its fields and tags are; not even a
    field whose type cannot be printed makes it fail. *)
Theorem unmarked_type_is_skipped (walker : Walker.t)
    (st : string * gmap string string) (spec : TypeSpec.t) :
  ¬ Exists is_marker (collect_docs walker spec) →
  spec_step ord walker st spec = Ok st.
Proof.
  intros Hno. apply spec_step_unmarked.
  rewrite scan_docs_hasMarker. by apply bool_decide_eq_false_2.
Qed.

(** X8: the interface name handed to the template is decided by the one
    option of the marker line: with -s it is the upper-camel-cased name
    of the struct, whatever the fields are; with -e it is the
    concatenation of the matched words; with -p or no option it is
    empty. *)
Theorem interface_name_by_option (docs : list Comment.t) (spec : TypeSpec.t)
    (fs : FieldLoop.t) :
  let fl := scan_docs docs in
  tmplParam.InterfaceName (spec_param fl spec fs) =
    if Flags.hasSuperOpts fl then ToUpperCamel (TypeSpec.Name spec)
    else if Flags.hasExtendsOpts fl then
      strings.Join
        (match_ (SplitIntoWords (ToUpperCamel (FieldLoop.superName fs)))
                (SplitIntoWords (ToUpperCamel (TypeSpec.Name spec)))) ""
    else "".
Proof.
  intros fl. subst fl. pose proof (scan_docs_exclusive docs) as Hx.
  unfold spec_param, interfaceName_of. cbn [tmplParam.InterfaceName].
  destruct (Flags.hasPointerOpts _), (Flags.hasSuperOpts _),
    (Flags.hasExtendsOpts _); done.
Qed.

Lemma tmpl_params_cons p f fields :
  String.concat "" (tmpl_param_line p <$> f :: fields)
  = tmpl_param_line p f +:+ String.concat "" (tmpl_param_line p <$> fields).
Proof. by rewrite fmap_cons, string_concat_cons. Qed.

(** X9: a field with a constant value never is a parameter: the
    parameter list of the constructor has one line for each field
    whose ConstValue is empty, in order, and none for the others; the
    body has one line for each field, and the line of a field with a
    constant value assigns that value as it is written in the tag. *)
Theorem constants_are_not_parameters (p : tmplParam.t) :
  tmpl_params p =
    String.concat ""
      ((λ f, nl +:+ tabs 9 +:+ tmpl_param p f +:+ ",")
         <$> filter (λ f, FieldInfo.ConstValue f = "") (tmplParam.Fields p))
  ∧ tmpl_assigns p =
      String.concat ""
        ((λ f, nl +:+ tabs 10 +:+ FieldInfo.Name f +:+ ": "
               +:+ tmpl_value p f +:+ ",") <$> tmplParam.Fields p)
  ∧ ∀ f, FieldInfo.ConstValue f ≠ "" →
         tmpl_value p f = FieldInfo.ConstValue f.
Proof.
  split; [|split].
  - unfold tmpl_params. induction (tmplParam.Fields p) as [|f fields IH];
      [done|].
    rewrite tmpl_params_cons, IH, filter_cons.
    unfold tmpl_param_line at 1, truth.
    destruct (decide (FieldInfo.ConstValue f = "")) as [Hc|Hc].
    + rewrite bool_decide_eq_true_2 by done. cbn [negb].
      by rewrite fmap_cons, string_concat_cons.
    + by rewrite bool_decide_eq_false_2 by done.
  - done.
  - intros f Hc. unfold tmpl_value, truth.
    by rewrite bool_decide_eq_false_2 by done.
Qed.

(* A marked struct appends its constructor, which does not depend on the
   state of the loop. *)
Lemma spec_step_marked_body walker st spec st' :
  Flags.hasMarker (scan_docs (collect_docs walker spec)) = true →
  spec_step ord walker st spec = Ok st' →
  st'.1 = st.1 +:+ constructor_of walker spec.
Proof.
  intros Hm. unfold spec_step. rewrite Hm.
  destruct (bool_decide (length (collect_docs walker spec) = 0)) eqn:Hlen.
  { apply bool_decide_eq_true_1 in Hlen.
    destruct (collect_docs walker spec); done. }
  cbn [negb].
  destruct (foldlM _ _ _) as [fs|e] eqn:Hloop; [|done].
  cbn [mbind result_bind]. intros [= <-]. cbn [fst]. f_equal.
  unfold constructor_of, spec_param. f_equal.
  rewrite (fields_loop_fieldInfos _ _ _ _ _ Hloop).
  rewrite (fields_loop_superName _ _ _ _ _ Hloop). done.
Qed.

Lemma specs_loop_body walker specs st st' :
  foldlM (spec_step ord walker) st specs = Ok st' →
  st'.1 = st.1
          +:+ String.concat ""
                (constructor_of walker
                   <$> filter (λ spec, Flags.hasMarker
                                 (scan_docs (collect_docs walker spec)) = true)
                         specs).
Proof.
  revert st. induction specs as [|spec specs IH]; intros st; simpl.
  - intros [= <-]. by rewrite string_app_nil_r.
  - destruct (spec_step ord walker st spec) as [st1|e] eqn:Hstep; [|done].
    cbn [mbind result_bind]. intros Hrest. rewrite (IH _ Hrest).
    rewrite filter_cons.
    destruct (Flags.hasMarker (scan_docs (collect_docs walker spec)))
      eqn:Hm.
    + rewrite decide_True by done.
      rewrite (spec_step_marked_body _ _ _ _ Hm Hstep).
      by rewrite fmap_cons, string_concat_cons, string_app_assoc.
    + rewrite decide_False by done.
      rewrite spec_step_unmarked in Hstep by done. by simplify_eq.
Qed.

(** X10: when a group is processed without error, its body is the
    concatenation, in declaration order, of one constructor for each
    struct with the marker and of nothing else; the constructor of a
    struct is determined by the struct alone (its name, its doc comments
    and its tagged fields): it depends neither on the import table nor
    on the structs around it. *)
Theorem body_is_constructors_of_marked_types (walker : Walker.t)
    (body : string) (imports : gmap string string) :
  group_body ord walker = Ok (body, imports) →
  body =
    String.concat ""
      (constructor_of walker
         <$> filter (λ spec, Flags.hasMarker
                       (scan_docs (collect_docs walker spec)) = true)
               (Walker.AllStructSpecs walker)).
Proof. intros Hloop%specs_loop_body. exact Hloop. Qed.

Lemma specs_loop_unmarked walker specs st :
  Forall (λ spec, ¬ Exists is_marker (collect_docs walker spec)) specs →
  foldlM (spec_step ord walker) st specs = Ok st.
Proof.
  induction 1 as [|spec specs Hno _ IH]; simpl; [done|].
  rewrite spec_step_unmarked; [apply IH|].
  rewrite scan_docs_hasMarker. by apply bool_decide_eq_false_2.
Qed.

Lemma group_body_unmarked walker :
  Forall (λ spec, ¬ Exists is_marker (collect_docs walker spec))
    (Walker.AllStructSpecs walker) →
  group_body ord walker = Ok ("", ∅).
Proof. apply specs_loop_unmarked. Qed.

(** X11: a group none of whose structs has the marker is skipped as a
    whole: Run goes on with the next group, no file is formatted, no
    writer is requested and nothing is written for it. *)
Theorem group_without_marker_is_skipped (opt : option_.t)
    (newWriter : Package.t → Writer.t) (walker : Walker.t)
    (walkers : list Walker.t) (deferred : list Package.t) :
  Forall (λ spec, ¬ Exists is_marker (collect_docs walker spec))
    (Walker.AllStructSpecs walker) →
  run_walkers ord opt newWriter (walker :: walkers) deferred
  = run_walkers ord opt newWriter walkers deferred.
Proof.
  intros Hall. cbn [run_walkers]. by rewrite (group_body_unmarked _ Hall).
Qed.

End MoreSynthesis.

(* --------------------------------------------------------------------- *)
(* What Run does with the writers                                        *)
(* --------------------------------------------------------------------- *)

Section Writers.

Context `{Ext : Externals}.
Variable ord : MapOrder.

(** X12: whatever Run returns, what it has done with the writers has one
    shape: for each group it wrote, in the order of the groups and at
    most once for a group, a request of the writer followed at once by a
    single Write; then, when it returns and not before, one Close for
    each request whose writer is a Closer, the last request first,
    followed by the Close calls that were already deferred.  Nothing is
    requested or written after the first Close, and every request of a
    Closer has its Close. *)
Theorem writers_closed_once_in_reverse (opt : option_.t)
    (newWriter : Package.t → Writer.t) (walkers : list Walker.t)
    (deferred : list Package.t) (tr : list Event) (r : result unit) :
  run_walkers ord opt newWriter walkers deferred = (tr, r) →
  ∃ outs : list (Package.t * string),
    tr = (outs ≫= request)
         ++ (EvClose
               <$> (reverse
                      (filter (λ pkg, Writer.IsCloser (newWriter pkg) = true)
                         outs.*1)
                    ++ deferred))
    ∧ outs.*1 `sublist_of` (Walker.Pkg <$> walkers).
Proof.
  revert deferred tr r.
  induction walkers as [|walker walkers IH]; intros deferred tr r;
    cbn [run_walkers].
  - intros [= <- <-]. by exists [].
  - rewrite fmap_cons.
    destruct (group_body ord walker) as [[body imports]|e].
    2:{ intros [= <- <-]. exists []. split; [done|]. apply sublist_nil_l. }
    destruct (bool_decide (String.length body = 0)).
    { intros Hrun. destruct (IH _ _ _ Hrun) as (outs & -> & Hsub).
      exists outs. split; [done|]. by apply sublist_cons. }
    destruct (group_text opt walker body imports) as [str|e].
    2:{ intros [= <- <-]. exists []. split; [done|]. apply sublist_nil_l. }
    set (pkg := Walker.Pkg walker).
    destruct (Writer.Write (newWriter pkg) str) as [n|e].
    + destruct (run_walkers ord opt newWriter walkers _) as [tr1 r1] eqn:Hrest.
      intros [= <- <-]. destruct (IH _ _ _ Hrest) as (outs & -> & Hsub).
      exists ((pkg, str) :: outs). split; [|by apply sublist_skip].
      rewrite bind_cons. cbn [request fst snd app].
      do 2 f_equal. f_equal. rewrite fmap_cons, filter_cons. cbn [fst].
      destruct (Writer.IsCloser (newWriter pkg)).
      * rewrite decide_True by done.
        by rewrite reverse_cons, <- app_assoc.
      * by rewrite decide_False by done.
    + intros [= <- <-]. exists [(pkg, str)].
      split; [|apply sublist_skip, sublist_nil_l].
      cbn [mbind list_bind request fst snd app fmap list_fmap].
      do 2 f_equal. rewrite filter_cons, filter_nil.
      destruct (Writer.IsCloser (newWriter pkg)).
      * by rewrite decide_True by done.
      * by rewrite decide_False by done.
Qed.

(** X13: every text Run hands to a writer is the result of format.Source
    on the file of a group whose body is not empty, written to the
    writer requested for the package of that group: Run never writes an
    unformatted text and never writes a file without constructor. *)
Theorem written_text_is_formatted (opt : option_.t)
    (newWriter : Package.t → Writer.t) (walkers : list Walker.t)
    (deferred : list Package.t) (tr : list Event) (r : result unit)
    (pkg : Package.t) (str : string) :
  run_walkers ord opt newWriter walkers deferred = (tr, r) →
  EvWrite pkg str ∈ tr →
  ∃ walker body imports,
    walker ∈ walkers
    ∧ pkg = Walker.Pkg walker
    ∧ group_body ord walker = Ok (body, imports)
    ∧ body ≠ ""
    ∧ Source (out_tmpl (option_.generatorName opt) (Package.Name pkg)
                (GoFmtImports imports) body) = Ok str.
Proof.
  assert (∀ d : list Package.t, EvWrite pkg str ∉ EvClose <$> d) as Hclose.
  { intros d (p & Hp & _)%list_elem_of_fmap. discriminate Hp. }
  revert deferred tr r.
  induction walkers as [|walker walkers IH]; intros deferred tr r;
    cbn [run_walkers].
  - intros [= <- <-] Hin. by apply Hclose in Hin.
  - destruct (group_body ord walker) as [[body imports]|e] eqn:Hbody.
    2:{ intros [= <- <-] Hin. by apply Hclose in Hin. }
    destruct (bool_decide (String.length body = 0)) eqn:Hlen.
    { intros Hrun Hin. destruct (IH _ _ _ Hrun Hin)
        as (w & b & i & Hw & ?). exists w, b, i. split; [by right|done]. }
    destruct (group_text opt walker body imports) as [str'|e] eqn:Htext.
    2:{ intros [= <- <-] Hin. by apply Hclose in Hin. }
    assert (body ≠ "") as Hne.
    { intros ->. by apply bool_decide_eq_false_1 in Hlen. }
    assert (∀ tail, EvWrite pkg str
                      ∈ EvNewWriter (Walker.Pkg walker)
                        :: EvWrite (Walker.Pkg walker) str' :: tail →
              EvWrite pkg str ∈ tail
              ∨ (pkg = Walker.Pkg walker ∧ str = str')) as Hhead.
    { intros tail [Habs|[Heq|?]%elem_of_cons]%elem_of_cons;
        [discriminate Habs|right; by simplify_eq|by left]. }
    destruct (Writer.Write _ str') as [n|e].
    + destruct (run_walkers ord opt newWriter walkers _) as [tr1 r1] eqn:Hrest.
      intros [= <- <-] [Hin|[-> ->]]%Hhead.
      * destruct (IH _ _ _ Hrest Hin) as (w & b & i & Hw & ?).
        exists w, b, i. split; [by right|done].
      * exists walker, body, imports. split; [by left|done].
    + intros [= <- <-] [Hin|[-> ->]]%Hhead; [by apply Hclose in Hin|].
      exists walker, body, imports. split; [by left|done].
Qed.

(* A group on which Run returns at once stops the run after the groups
   before it. *)
Lemma run_walkers_stops opt newWriter ws1 walker ws2 deferred tr e :
  run_walkers ord opt newWriter ws1 deferred = (tr, Ok ()) →
  (∀ d, run_walkers ord opt newWriter (walker :: ws2) d
        = (EvClose <$> d, Err e)) →
  run_walkers ord opt newWriter (ws1 ++ walker :: ws2) deferred
  = (tr, Err e).
Proof.
  intros Hws1 Hstop. revert deferred tr Hws1.
  induction ws1 as [|w ws1 IH]; intros deferred tr.
  - cbn [run_walkers app]. intros [= <-]. apply Hstop.
  - rewrite <- app_comm_cons. cbn [run_walkers].
    destruct (group_body ord w) as [[body imports]|e']; [|done].
    destruct (bool_decide (String.length body = 0)); [apply IH|].
    destruct (group_text opt w body imports) as [str|e']; [|done].
    destruct (Writer.Write _ str) as [n|e']; [|done].
    destruct (run_walkers ord opt newWriter ws1 _) as [tr1 r1] eqn:Hrest.
    intros [= <- ->]. by rewrite (IH _ _ Hrest).
Qed.

(** X14: when format.Source refuses the file of a group, Run returns its
    error and has done with the writers what it did for the groups
    before: no writer is requested for the group and the groups after
    it are not processed. *)
Theorem format_error_requests_no_writer (opt : option_.t)
    (newWriter : Package.t → Writer.t) (ws1 : list Walker.t)
    (walker : Walker.t) (ws2 : list Walker.t) (deferred : list Package.t)
    (tr : list Event) (body : string) (imports : gmap string string)
    (e : error) :
  run_walkers ord opt newWriter ws1 deferred = (tr, Ok ()) →
  group_body ord walker = Ok (body, imports) →
  body ≠ "" →
  Source (out_tmpl (option_.generatorName opt)
            (Package.Name (Walker.Pkg walker)) (GoFmtImports imports) body)
  = Err e →
  run_walkers ord opt newWriter (ws1 ++ walker :: ws2) deferred
  = (tr, Err e).
Proof.
  intros Hws1 Hbody Hne Hsrc. apply run_walkers_stops; [done|].
  intros d. cbn [run_walkers]. rewrite Hbody.
  rewrite bool_decide_eq_false_2 by (by destruct body).
  unfold group_text. by rewrite Hsrc.
Qed.

End Writers.

(* --------------------------------------------------------------------- *)
(* The identifiers of a constant value                                   *)
(* --------------------------------------------------------------------- *)

Section Constants.

Context `{Ext : Externals}.
Variable ord : MapOrder.


(** X16: a field whose constant value is not empty and holds no letter
    and none of . _ - (a number, say) is included with that constant,
    and the import table is left exactly as it was: nothing is resolved
    for the constant, and the imports of the type of the field are not
    merged either. *)
Theorem constant_without_identifier_needs_no_import (walker : Walker.t)
    (st : FieldLoop.t) (field : Field.t) (value v : string)
    (tp : TypePrinter.t) :
  Field.Tag field = Some value →
  Lookup (strings.Trim value "`") "required" = Some v →
  v ≠ "" →
  all_runes (λ r, negb (ident_rune r)) v →
  Walker.ToTypePrinter walker (Field.Type_ field) = Ok tp →
  field_step ord walker st field =
    Ok (FieldLoop.mk
          (FieldLoop.fieldInfos st
           ++ [FieldInfo.mk (TypePrinter.Print tp (Walker.PkgPath walker))
                 (ParseFieldName field) v])
          (if has_super_tag field then ParseFieldName field
           else FieldLoop.superName st)
          (FieldLoop.importPackages st)).
Proof.
  intros Htag Hreq Hne Hsep Htp.
  unfold field_step, has_super_tag. rewrite Htag, Hreq, Htp.
  cbn [mbind result_bind default id].
  rewrite (bool_decide_eq_true_2 (is_Some (Some v))) by eauto.
  cbn [negb andb]. rewrite bool_decide_eq_false_2 by done. cbn [negb].
  unfold strings.FieldsFunc. rewrite fields_from_separators; [done|].
  eapply Forall_impl; [exact Hsep|]. intros x Hx.
  by rewrite const_sep_ident_rune.
Qed.

(** X17: with the extends option, when every word of the upper-camel-cased
    name of the base field is a word of the upper-camel-cased name of the
    struct (and joining the words of the base name gives that name
    back), the interface name is the upper-camel-cased base name, so
    the base field is the narrowed one.  If it has no constant value,
    its parameter is x, typed as the interface, and the body assigns it
    the down-cast of x to the pointer to the field name; if it has a
    constant value, it has no parameter and the body assigns it the
    constant, without down-cast. *)
Theorem base_field_is_narrowed (fl : Flags.t) (spec : TypeSpec.t)
    (fs : FieldLoop.t) (f : FieldInfo.t) :
  Flags.hasExtendsOpts fl = true →
  FieldInfo.Name f = FieldLoop.superName fs →
  (∀ w, w ∈ SplitIntoWords (ToUpperCamel (FieldLoop.superName fs)) →
        w ∈ SplitIntoWords (ToUpperCamel (TypeSpec.Name spec))) →
  strings.Join (SplitIntoWords (ToUpperCamel (FieldLoop.superName fs))) ""
  = ToUpperCamel (FieldLoop.superName fs) →
  let p := spec_param fl spec fs in
  tmplParam.InterfaceName p = ToUpperCamel (FieldInfo.Name f)
  ∧ narrowed p f = true
  ∧ tmpl_param_line p f =
      (if decide (FieldInfo.ConstValue f = "")
       then nl +:+ tabs 9 +:+ "x " +:+ ToUpperCamel (FieldInfo.Name f)
            +:+ ","
       else "")
  ∧ tmpl_assign_line p f =
      nl +:+ tabs 10 +:+ FieldInfo.Name f +:+ ": "
      +:+ (if decide (FieldInfo.ConstValue f = "")
           then "x.(" +:+ "*" +:+ FieldInfo.Name f +:+ ")"
           else FieldInfo.ConstValue f)
      +:+ ",".
Proof.
  intros He Hname Hwords Hjoin p.
  assert (tmplParam.InterfaceName p = ToUpperCamel (FieldInfo.Name f))
    as Hiface.
  { subst p. unfold spec_param, interfaceName_of.
    cbn [tmplParam.InterfaceName]. rewrite He, match_filter, Hname.
    assert (∀ own ws : list string, (∀ w, w ∈ ws → w ∈ own) →
              filter (λ x, x ∈ own) ws = ws) as Hall.
    { intros own. induction ws as [|w ws IH]; intros Hws; [done|].
      rewrite filter_cons, decide_True by (apply Hws; by left).
      rewrite IH; [done|]. intros w' Hw'. apply Hws. by right. }
    by rewrite (Hall _ _ Hwords). }
  assert (narrowed p f = true) as Hn.
  { unfold narrowed. rewrite Hiface.
    rewrite (bool_decide_eq_true_2 (_ = _)) by reflexivity.
    subst p. unfold spec_param. cbn [tmplParam.Extends]. by rewrite He. }
  split; [done|]. split; [done|].
  unfold tmpl_param_line, tmpl_assign_line, tmpl_value, tmpl_param, truth.
  rewrite Hn, Hiface.
  destruct (decide (FieldInfo.ConstValue f = "")) as [Hc|Hc].
  - rewrite bool_decide_eq_true_2 by done. cbn [negb].
    split; [reflexivity|]. by rewrite !string_app_assoc.
  - by rewrite bool_decide_eq_false_2 by done.
Qed.

End Constants.

(* --------------------------------------------------------------------- *)
(* A run without error                                                   *)
(* --------------------------------------------------------------------- *)

Section Success.

Context `{Ext : Externals}.
Variable ord : MapOrder.

Lemma requested_packages_closes (deferred : list Package.t) :
  requested_packages (EvClose <$> deferred) = [].
Proof. induction deferred as [|pkg deferred IH]; [done|]. exact IH. Qed.

(** X18: when Run returns without error, every group was processed
    without error, and the writers it requested are, in the order of the
    groups and one for each, those of the groups whose body is not
    empty: no such group is left out and none is written twice. *)
Theorem successful_run_writes_each_group_once (opt : option_.t)
    (newWriter : Package.t → Writer.t) (walkers : list Walker.t)
    (deferred : list Package.t) (tr : list Event) :
  run_walkers ord opt newWriter walkers deferred = (tr, Ok ()) →
  Forall (λ walker, ∃ r, group_body ord walker = Ok r) walkers
  ∧ requested_packages tr
    = Walker.Pkg <$> filter (λ walker, group_has_body ord walker = true)
                       walkers.
Proof.
  revert deferred tr.
  induction walkers as [|walker walkers IH]; intros deferred tr;
    cbn [run_walkers].
  - intros [= <-]. split; [constructor|]. apply requested_packages_closes.
  - destruct (group_body ord walker) as [[body imports]|e] eqn:Hbody;
      [|done].
    destruct (bool_decide (String.length body = 0)) eqn:Hlen.
    + assert (group_has_body ord walker = false) as Hhas.
      { unfold group_has_body. by rewrite Hbody, Hlen. }
      intros [Hall Hreq]%IH. split; [constructor; eauto|].
      by rewrite filter_cons, decide_False by (by rewrite Hhas).
    + assert (group_has_body ord walker = true) as Hhas.
      { unfold group_has_body. by rewrite Hbody, Hlen. }
      destruct (group_text opt walker body imports) as [str|e]; [|done].
      destruct (Writer.Write _ str) as [n|e]; [|done].
      destruct (run_walkers ord opt newWriter walkers _) as [tr1 r1] eqn:Hrest.
      intros [= <- ->]. destruct (IH _ _ Hrest) as [Hall Hreq].
      split; [constructor; eauto|].
      rewrite filter_cons, decide_True by done.
      rewrite fmap_cons, <- Hreq. done.
Qed.

End Success.

(* --------------------------------------------------------------------- *)
(* The further properties on the examples                                *)
(* --------------------------------------------------------------------- *)

(* X7 on Plain, whose only comment has no marker and whose field has a
   constant that would not resolve. *)
Lemma unmarked_type_is_skipped_witness :
  ¬ Exists is_marker (collect_docs MoreExamples.plain MoreExamples.Plain)
  ∧ spec_step (Ext := Examples.ext) Reference.ascending MoreExamples.plain
      ("", ∅) MoreExamples.Plain = Ok ("", ∅).
Proof.
  assert (¬ Exists is_marker
              (collect_docs MoreExamples.plain MoreExamples.Plain)) as Hno.
  { intros [Hm|Hm%Exists_nil]%Exists_cons; [|done].
    vm_compute in Hm. discriminate Hm. }
  split; [exact Hno|].
  apply (unmarked_type_is_skipped (Ext := Examples.ext) Reference.ascending
           MoreExamples.plain ("", ∅) MoreExamples.Plain Hno).
Defined.

(* X10 on a package with Timer, Plain and Point: the body holds the
   constructors of Timer and of Point. *)
Lemma body_is_constructors_of_marked_types_witness :
  ∃ (body : string) (imports : gmap string string),
    group_body (Ext := Examples.ext) Reference.ascending MoreExamples.mixed
    = Ok (body, imports)
    ∧ body =
        String.concat ""
          (constructor_of (Ext := Examples.ext) MoreExamples.mixed
             <$> filter (λ spec, Flags.hasMarker
                           (scan_docs
                              (collect_docs MoreExamples.mixed spec)) = true)
                   (Walker.AllStructSpecs MoreExamples.mixed)).
Proof.
  eexists. eexists. split; [vm_compute; reflexivity|].
  eapply (body_is_constructors_of_marked_types (Ext := Examples.ext)
            Reference.ascending MoreExamples.mixed).
  vm_compute; reflexivity.
Defined.

(* X11 on the package of Plain, followed by the package of Point. *)
Lemma group_without_marker_is_skipped_witness :
  run_walkers (Ext := Examples.ext) Reference.ascending
    (option_.mk None "go-genconstructor") Reference.file
    [MoreExamples.plain; Examples.geo] []
  = run_walkers (Ext := Examples.ext) Reference.ascending
      (option_.mk None "go-genconstructor") Reference.file [Examples.geo] [].
Proof.
  apply (group_without_marker_is_skipped (Ext := Examples.ext)
           Reference.ascending).
  apply Forall_singleton.
  intros [Hm|Hm%Exists_nil]%Exists_cons; [|done].
  vm_compute in Hm. discriminate Hm.
Defined.

(* X12 on the packages of Point and of Timer, written to files. *)
Lemma writers_closed_once_in_reverse_witness :
  ∃ (tr : list Event) (r : result unit) (outs : list (Package.t * string)),
    run_walkers (Ext := Examples.ext) Reference.ascending
      (option_.mk None "go-genconstructor") Reference.file
      [Examples.geo; Examples.timers] [] = (tr, r)
    ∧ tr = (outs ≫= request)
           ++ (EvClose
                 <$> (reverse
                        (filter (λ pkg, Writer.IsCloser (Reference.file pkg)
                                        = true) outs.*1)
                      ++ [])).
Proof.
  eexists. eexists.
  match goal with
  | |- ∃ outs, ?run = (?tr, ?r) ∧ _ =>
      refine (match
                writers_closed_once_in_reverse (Ext := Examples.ext)
                  Reference.ascending (option_.mk None "go-genconstructor")
                  Reference.file [Examples.geo; Examples.timers] []
                  _ _ _
              with
              | ex_intro _ outs Houts => ex_intro _ outs (conj _ (proj1 Houts))
              end)
  end; vm_compute; reflexivity.
Defined.

(* X13 on the same run: the text written for the package of Point. *)
Lemma written_text_is_formatted_witness :
  ∃ (tr : list Event) (r : result unit) (str : string),
    run_walkers (Ext := Examples.ext) Reference.ascending
      (option_.mk None "go-genconstructor") Reference.file
      [Examples.geo; Examples.timers] [] = (tr, r)
    ∧ EvWrite (Package.mk "geo") str ∈ tr
    ∧ ∃ walker body imports,
        walker ∈ [Examples.geo; Examples.timers]
        ∧ Package.mk "geo" = Walker.Pkg walker
        ∧ group_body (Ext := Examples.ext) Reference.ascending walker
          = Ok (body, imports)
        ∧ body ≠ ""
        ∧ Source (Externals := Examples.ext)
            (out_tmpl "go-genconstructor" "geo"
               (GoFmtImports (Externals := Examples.ext) imports) body)
          = Ok str.
Proof.
  eexists. eexists. eexists.
  assert (∀ P Q R : Prop, P → Q → (P → Q → R) → P ∧ Q ∧ R) as Hand
    by tauto.
  apply Hand.
  - vm_compute; reflexivity.
  - apply elem_of_cons. right. apply elem_of_cons. left. reflexivity.
  - intros Hrun Hin.
    exact (written_text_is_formatted (Ext := Examples.ext)
             Reference.ascending (option_.mk None "go-genconstructor")
             Reference.file [Examples.geo; Examples.timers] [] _ _
             (Package.mk "geo") _ Hrun Hin).
Defined.

(* X14 on the package of Point when format.Source refuses the text. *)
Lemma format_error_requests_no_writer_witness :
  run_walkers (Ext := MoreExamples.ext_unformattable) Reference.ascending
    (option_.mk None "go-genconstructor") Reference.file
    ([] ++ Examples.geo :: [Examples.timers]) []
  = ([], Err "expected declaration").
Proof.
  eapply (format_error_requests_no_writer
            (Ext := MoreExamples.ext_unformattable) Reference.ascending
            (option_.mk None "go-genconstructor") Reference.file
            [] Examples.geo [Examples.timers] [] []).
  - reflexivity.
  - vm_compute; reflexivity.
  - discriminate.
  - reflexivity.
Defined.

(* X16 on a field with the constant 42. *)
Lemma constant_without_identifier_needs_no_import_witness :
  field_step (Ext := Examples.ext) Reference.ascending Examples.geo
    (FieldLoop.mk [] "" {["clock" := "example.com/clock"]})
    MoreExamples.field_Answer
  = Ok (FieldLoop.mk ([] ++ [FieldInfo.mk "int" "Answer" "42"]) ""
          {["clock" := "example.com/clock"]}).
Proof.
  assert (all_runes (λ r, negb (ident_rune (Ext := Examples.ext) r)) "42")
    as Hsep.
  { unfold all_runes.
    change (utf8.range "42") with [(52%N, "4"); (50%N, "2")].
    repeat constructor. }
  assert ("42" ≠ "") as Hne by discriminate.
  exact (constant_without_identifier_needs_no_import (Ext := Examples.ext)
           Reference.ascending Examples.geo
           (FieldLoop.mk [] "" {["clock" := "example.com/clock"]})
           MoreExamples.field_Answer MoreExamples.tag_42 "42"
           (Examples.printer_of (Walker.ToTypePrinter Examples.geo "int"))
           eq_refl eq_refl Hne Hsep eq_refl).
Defined.

(* X17 on AdminUser with the embedded base User and the constant nil:
   the interface is User, the field has no parameter and is assigned
   nil. *)
Lemma base_field_is_narrowed_witness :
  let fl := Flags.mk true false false true in
  let f := FieldInfo.mk "*User" "User" "nil" in
  let fs := FieldLoop.mk [f] "User" ∅ in
  let p := spec_param (Ext := Examples.ext) fl MoreExamples.AdminUserNil fs in
  foldlM (field_step (Ext := Examples.ext) Reference.ascending Examples.users)
    (FieldLoop.mk [] "" ∅) (TypeSpec.Fields MoreExamples.AdminUserNil) = Ok fs
  ∧ tmplParam.InterfaceName p = "User"
  ∧ narrowed (Ext := Examples.ext) p f = true
  ∧ tmpl_param_line (Ext := Examples.ext) p f = ""
  ∧ tmpl_assign_line (Ext := Examples.ext) p f
    = nl +:+ tabs 10 +:+ "User" +:+ ": " +:+ "nil" +:+ ",".
Proof.
  intros fl f fs p. split; [vm_compute; reflexivity|].
  apply (base_field_is_narrowed (Ext := Examples.ext) fl
           MoreExamples.AdminUserNil fs f); try reflexivity.
  intros w Hw. vm_compute in Hw.
  apply list_elem_of_singleton in Hw as ->.
  change (SplitIntoWords (Externals := Examples.ext)
            (ToUpperCamel (Externals := Examples.ext)
               (TypeSpec.Name MoreExamples.AdminUserNil)))
    with ["Admin"; "User"].
  apply elem_of_cons. right. apply elem_of_cons. by left.
Defined.

(* X18 on the packages of Point, of Plain and of Timer. *)
Lemma successful_run_writes_each_group_once_witness :
  ∃ tr : list Event,
    run_walkers (Ext := Examples.ext) Reference.ascending
      (option_.mk None "go-genconstructor") Reference.file
      [Examples.geo; MoreExamples.plain; Examples.timers] [] = (tr, Ok ())
    ∧ requested_packages tr = [Package.mk "geo"; Package.mk "timers"].
Proof.
  eexists.
  assert (∀ P Q : Prop, P → (P → Q) → P ∧ Q) as Hand by tauto.
  apply Hand; [vm_compute; reflexivity|]. intros Hrun.
  destruct (successful_run_writes_each_group_once (Ext := Examples.ext)
              Reference.ascending _ _ _ _ _ Hrun) as [_ Hreq].
  exact Hreq.
Defined.
